(** * Verification of the spatial_graph typed graph engine

    Shallow embedding of [src/spatial_graph/graph/wrapper_template.pyx]
    (the Cython [UndirectedGraph] wrapper) together with the store it
    drives, [UndirectedGraphTmpl] = [graph_lite::Graph<..., UNDIRECTED,
    MultiEdge::DISALLOWED, SelfLoop::DISALLOWED, UNORDERED_MAP, VEC>].

    Node keys are [Z]; [u < v] on [NodeType] is [Z.ltb].  A node or edge
    attribute record ([NodeData] / [EdgeData]) is the list of its named
    field values.  The unordered map of the store is a list whose order is
    the map's iteration order ([begin()] .. [end()]); every statement
    below quantifies over all states, so no particular order is assumed. *)

From Stdlib Require Import ZArith List String Bool Lia.
Import ListNotations.
Open Scope Z_scope.

(** ** Attribute schema and records *)

(** A field kind: a scalar, or a fixed array of [n] components. *)
Inductive dtype := DScalar | DArray (n : nat).

(** A field value held by a record or passed from Python. *)
Inductive val := VScalar (z : Z) | VArray (zs : list Z).

Definition schema := list (string * dtype).

(** An instance of the generated [NodeData] / [EdgeData] class. *)
Definition record := list (string * val).

Definition is_array (d : dtype) : bool :=
  match d with DArray _ => true | DScalar => false end.

(** The generated constructor: a scalar member is initialised from its
    argument, an array member [name{_name[0], ..., _name[n-1]}] copies the
    first [n] components behind the pointer it receives. *)
Definition init_member (d : dtype) (v : val) : val :=
  match d, v with
  | DArray n, VArray zs => VArray (firstn n zs)
  | _, _ => v
  end.

Definition make_record (s : schema) (args : list val) : record :=
  map (fun '((name, d), v) => (name, init_member d v)) (combine s args).

(** Reading member [name] of a record ([prop.name]). *)
Fixpoint get_field (r : record) (name : string) : option val :=
  match r with
  | [] => None
  | (n, v) :: r' => if String.eqb n name then Some v else get_field r' name
  end.

(** Assigning member [name] of a record ([prop.name = value]). *)
Definition set_field (r : record) (name : string) (v : val) : record :=
  map (fun '(n, w) => if String.eqb n name then (n, v) else (n, w)) r.

(** ** The store ([UndirectedGraphTmpl]) *)

(** One entry of the unordered map: the node property and its neighbour
    container ([Container::VEC]), a vector of (neighbour, edge record id).
    Both directions of an undirected edge carry the same record id, so
    [edge_prop(u, v)] and [edge_prop(v, u)] reach one record. *)
Record node_entry := mkEntry { nprop : record; nbrs : list (Z * nat) }.

Record graph := mkGraph {
  adj : list (Z * node_entry);
  eprops : list (nat * record);
  next_eid : nat;
  num_of_edges : nat
}.

Definition empty_graph : graph := mkGraph [] [] 0 0.

Fixpoint lookup {A} (k : Z) (l : list (Z * A)) : option A :=
  match l with
  | [] => None
  | (k', a) :: l' => if Z.eqb k' k then Some a else lookup k l'
  end.

Fixpoint lookup_nat {A} (k : nat) (l : list (nat * A)) : option A :=
  match l with
  | [] => None
  | (k', a) :: l' => if Nat.eqb k' k then Some a else lookup_nat k l'
  end.

Definition mem_node (g : graph) (k : Z) : bool :=
  match lookup k (adj g) with Some _ => true | None => false end.

Definition update_entry (k : Z) (f : node_entry -> node_entry)
    (l : list (Z * node_entry)) : list (Z * node_entry) :=
  map (fun '(w, e) => if Z.eqb w k then (w, f e) else (w, e)) l.

(** [neighbors(node)] as a list of neighbour keys (absent node: error). *)
Definition neighbors (g : graph) (k : Z) : option (list (Z * nat)) :=
  option_map nbrs (lookup k (adj g)).

Definition has_edge (g : graph) (u v : Z) : bool :=
  match lookup u (adj g) with
  | Some e => match lookup v (nbrs e) with Some _ => true | None => false end
  | None => false
  end.

(** Modelled from the spec: [graph_lite.h] ([add_node_with_prop]) is not
    part of the sources.  The spec (4.2, 7) asks that an existing key be
    rejected with the state unchanged; the result is the int return code. *)
Definition add_node_with_prop (g : graph) (k : Z) (p : record) : graph * Z :=
  if mem_node g k then (g, 1)
  else (mkGraph (adj g ++ [(k, mkEntry p [])]) (eprops g) (next_eid g)
                (num_of_edges g), 0).

(** Modelled from the spec: [graph_lite.h] ([add_edge_with_prop]) is not
    part of the sources.  The spec (3, 4.2, 7) rejects a self-loop, an
    absent endpoint and an existing edge, leaving the state unchanged; an
    accepted edge is pushed at the back of both neighbour vectors
    ([Container::VEC]) with one shared attribute record. *)
Definition add_edge_with_prop (g : graph) (u v : Z) (p : record) : graph * Z :=
  if Z.eqb u v then (g, 1)
  else if negb (mem_node g u && mem_node g v) then (g, 1)
  else if has_edge g u v then (g, 1)
  else
    let id := next_eid g in
    (mkGraph
       (update_entry v (fun e => mkEntry (nprop e) (nbrs e ++ [(u, id)]))
          (update_entry u (fun e => mkEntry (nprop e) (nbrs e ++ [(v, id)]))
             (adj g)))
       (eprops g ++ [(id, p)]) (S id) (S (num_of_edges g)), 0).

(** Modelled from the spec: [graph_lite.h] ([remove_nodes]) is not part of
    the sources.  The spec (4.2) removes the node and every incident edge:
    the node is erased from the container of each of its neighbours, the
    edge count drops by its degree, then its map entry is erased.  An
    absent node leaves the state unchanged. *)
Definition remove_nodes (g : graph) (k : Z) : graph * Z :=
  match lookup k (adj g) with
  | None => (g, 0)
  | Some ek =>
      let drop_k := fun e => mkEntry (nprop e)
                               (filter (fun '(w, _) => negb (Z.eqb w k)) (nbrs e)) in
      let adj1 := fold_left (fun l '(v, _) => update_entry v drop_k l) (nbrs ek) (adj g) in
      (mkGraph (filter (fun '(w, _) => negb (Z.eqb w k)) adj1)
               (filter (fun '(id, _) =>
                          negb (existsb (fun '(_, id') => Nat.eqb id id') (nbrs ek)))
                       (eprops g))
               (next_eid g) (num_of_edges g - List.length (nbrs ek))%nat, 1)
  end.

(** [edge_prop(u, v)]: the record of edge (u, v), through u's container. *)
Definition edge_prop (g : graph) (u v : Z) : option record :=
  match lookup u (adj g) with
  | None => None
  | Some e =>
      match lookup v (nbrs e) with
      | None => None
      | Some id => lookup_nat id (eprops g)
      end
  end.

Definition node_prop (g : graph) (k : Z) : option record :=
  option_map nprop (lookup k (adj g)).

Definition count_neighbors (g : graph) (k : Z) : option nat :=
  option_map (fun e => List.length (nbrs e)) (lookup k (adj g)).

Definition size (g : graph) : nat := List.length (adj g).

(** ** The Cython wrapper ([cdef class UndirectedGraph]) *)

(** Exceptions a wrapper call can raise into Python.

    [node_prop], [edge_prop], [neighbors] and [count_neighbors] of
    [UndirectedGraphTmpl] are declared without [except +], so on an
    absent node or edge the C++ error does not become a Python exception:
    the process aborts.  Below, that abort is marked by [KeyError] in a
    [pyret] result and by [None] in an [option] result of [get_node_data]
    and [get_edge_data].  It is not a catchable exception of the real
    code: the properties use those outcomes only on present nodes and
    edges, or to compare two calls that both reach the abort. *)
Inductive exn := AssertionError | IndexError | KeyError.

(** What a Python call returns: a value, or a raised exception.  The
    wrapper mutates [self._graph] in place, so every call below returns the
    new store together with this result, also when it raises. *)
Inductive pyret (A : Type) := Ret (a : A) | Raise (e : exn).
Arguments Ret {A} a.
Arguments Raise {A} e.

(** [&name[0]] on an array argument (a memoryview) raises [IndexError]
    when it has no component; scalars are passed by value. *)
Definition arg_ok (d : dtype) (v : val) : bool :=
  match d, v with
  | DArray _, VArray [] => false
  | _, _ => true
  end.

Definition args_ok (s : schema) (args : list val) : bool :=
  forallb (fun '((_, d), v) => arg_ok d v) (combine s args).

(** [add_node(node, *attrs)]: builds [NodeData(...)] and calls
    [add_node_with_prop]; the int it returns is discarded. *)
Definition add_node (s : schema) (g : graph) (k : Z) (args : list val)
    : graph * pyret unit :=
  if args_ok s args then (fst (add_node_with_prop g k (make_record s args)), Ret tt)
  else (g, Raise IndexError).

(** [add_edge(edge, *attrs)]: [add_edge_with_prop(edge[0], edge[1], ...)];
    the int it returns is discarded. *)
Definition add_edge (s : schema) (g : graph) (edge : Z * Z) (args : list val)
    : graph * pyret unit :=
  if args_ok s args
  then (fst (add_edge_with_prop g (fst edge) (snd edge) (make_record s args)), Ret tt)
  else (g, Raise IndexError).

(** Row [i] of the column arrays as read inside the bulk loops:
    [name[i]] for a scalar, [&name[i, 0]] for an array field. *)
Fixpoint read_row (s : schema) (cols : list (list val)) (i : nat) : option (list val) :=
  match s, cols with
  | (_, d) :: s', col :: cols' =>
      match nth_error col i with
      | Some v =>
          if arg_ok d v
          then option_map (cons v) (read_row s' cols' i)
          else None
      | None => None
      end
  | _, _ => Some []
  end.

(** The body of [for i in range(len(nodes))] in [add_nodes]. *)
Fixpoint add_nodes_loop (s : schema) (g : graph) (nodes : list Z)
    (cols : list (list val)) (i fuel : nat) : graph * pyret unit :=
  match fuel with
  | O => (g, Ret tt)
  | S fuel' =>
      match nth_error nodes i, read_row s cols i with
      | Some k, Some row =>
          add_nodes_loop s (fst (add_node_with_prop g k (make_record s row)))
            nodes cols (S i) fuel'
      | _, _ => (g, Raise IndexError)
      end
  end.

Definition add_nodes (s : schema) (g : graph) (nodes : list Z)
    (cols : list (list val)) : graph * pyret unit :=
  add_nodes_loop s g nodes cols 0 (List.length nodes).

(** The body of [for i in range(len(edges))] in [add_edges]. *)
Fixpoint add_edges_loop (s : schema) (g : graph) (edges : list (Z * Z))
    (cols : list (list val)) (i fuel : nat) : graph * pyret unit :=
  match fuel with
  | O => (g, Ret tt)
  | S fuel' =>
      match nth_error edges i, read_row s cols i with
      | Some (u, v), Some row =>
          add_edges_loop s (fst (add_edge_with_prop g u v (make_record s row)))
            edges cols (S i) fuel'
      | _, _ => (g, Raise IndexError)
      end
  end.

Definition add_edges (s : schema) (g : graph) (edges : list (Z * Z))
    (cols : list (list val)) : graph * pyret unit :=
  add_edges_loop s g edges cols 0 (List.length edges).

(** [remove_node(node)]: [self._graph.remove_nodes(node)], result dropped. *)
Definition remove_node (g : graph) (k : Z) : graph * pyret unit :=
  (fst (remove_nodes g k), Ret tt).

(** [edges()] without a node: for each node [u] in map order, for each
    neighbour [v] in container order, yield [(u, v)] when [u < v]. *)
Definition edges_of_node (u : Z) (e : node_entry) : list (Z * Z) :=
  map (fun '(v, _) => (u, v)) (filter (fun '(v, _) => Z.ltb u v) (nbrs e)).

Definition edges (g : graph) : list (Z * Z) :=
  flat_map (fun '(u, e) => edges_of_node u e) (adj g).

Definition num_edges (g : graph) : nat := num_of_edges g.

(** [count_neighbors(nodes)] followed by [np.sum] ([_num_edges]). *)
Fixpoint sum_counts (g : graph) (keys : list Z) : option nat :=
  match keys with
  | [] => Some O
  | k :: ks =>
      match count_neighbors g k, sum_counts g ks with
      | Some c, Some t => Some (c + t)%nat
      | _, _ => None
      end
  end.

(** [edges_by_nodes(nodes)]: the rows written into the freshly allocated
    [(num_edges, 2)] array before [data[:i]] is returned.  [None] marks
    the abort of [neighbors] at an absent key. *)
Fixpoint edges_by_nodes_rows (g : graph) (keys : list Z) : option (list (Z * Z)) :=
  match keys with
  | [] => Some []
  | u :: ks =>
      match neighbors g u, edges_by_nodes_rows g ks with
      | Some ns, Some rest =>
          Some (map (fun '(v, _) => (u, v)) (filter (fun '(v, _) => Z.ltb u v) ns) ++ rest)
      | _, _ => None
      end
  end.

(** [KeyError] marks the abort of [count_neighbors] / [neighbors] at an
    absent key. *)
Definition edges_by_nodes (g : graph) (keys : list Z) : pyret (list (Z * Z)) :=
  match sum_counts g keys, edges_by_nodes_rows g keys with
  | Some _, Some rows => Ret rows
  | _, _ => Raise KeyError
  end.

(** [get_node_data_<name>(node)] and [get_edge_data_<name>(u, v)].  At an
    absent node or edge the real call aborts in [node_prop] /
    [edge_prop]; the model gives [None] there. *)
Definition get_node_data (name : string) (g : graph) (k : Z) : option val :=
  match node_prop g k with Some r => get_field r name | None => None end.

Definition get_edge_data (name : string) (g : graph) (u v : Z) : option val :=
  match edge_prop g u v with Some r => get_field r name | None => None end.

Definition set_nprop (name : string) (x : val) (e : node_entry) : node_entry :=
  mkEntry (set_field (nprop e) name x) (nbrs e).

(** [set_node_data_<name>(node, value)].  [KeyError] marks the abort of
    [node_prop] at an absent node. *)
Definition set_node_data (name : string) (g : graph) (k : Z) (x : val)
    : graph * pyret unit :=
  if mem_node g k
  then (mkGraph (update_entry k (set_nprop name x) (adj g)) (eprops g)
                (next_eid g) (num_of_edges g), Ret tt)
  else (g, Raise KeyError).

(** The [nodes is None] branch of [set_nodes_data_<name>]: walk the map
    from [begin()] to [end()] assigning [values[i]] to the i-th node. *)
Fixpoint assign_all (name : string) (l : list (Z * node_entry)) (vals : list val)
    (i : nat) : list (Z * node_entry) * pyret unit :=
  match l with
  | [] => ([], Ret tt)
  | (k, e) :: l' =>
      match nth_error vals i with
      | None => (l, Raise IndexError)
      | Some x =>
          let (l'', r) := assign_all name l' vals (S i) in
          ((k, set_nprop name x e) :: l'', r)
      end
  end.

(** The explicit-keys branch: [for i in range(len(nodes))]; an absent
    key ends in the abort of [node_prop] ([KeyError] here). *)
Fixpoint assign_keys (name : string) (g : graph) (keys : list Z) (vals : list val)
    : graph * pyret unit :=
  match keys, vals with
  | k :: ks, x :: xs =>
      let (g1, r) := set_node_data name g k x in
      match r with
      | Ret _ => assign_keys name g1 ks xs
      | Raise e => (g1, Raise e)
      end
  | _, _ => (g, Ret tt)
  end.

(** [set_nodes_data_<name>(nodes, values)]; [None] is [nodes is None]. *)
Definition set_nodes_data (name : string) (g : graph) (nodes : option (list Z))
    (vals : list val) : graph * pyret unit :=
  match nodes with
  | None =>
      let (l, r) := assign_all name (adj g) vals 0 in
      (mkGraph l (eprops g) (next_eid g) (num_of_edges g), r)
  | Some ks =>
      if Nat.eqb (List.length ks) (List.length vals)
      then assign_keys name g ks vals
      else (g, Raise AssertionError)
  end.

(** [set_edge_data_<name>(u, v, value)]: assign through [edge_prop(u, v)].
    [KeyError] marks the abort of [edge_prop] at a pair that is not an
    edge. *)
Definition set_edge_data (name : string) (g : graph) (u v : Z) (x : val)
    : graph * pyret unit :=
  match lookup u (adj g) with
  | None => (g, Raise KeyError)
  | Some e =>
      match lookup v (nbrs e) with
      | None => (g, Raise KeyError)
      | Some id =>
          (mkGraph (adj g)
             (map (fun '(id', r) => if Nat.eqb id' id then (id', set_field r name x)
                                    else (id', r)) (eprops g))
             (next_eid g) (num_of_edges g), Ret tt)
      end
  end.

(** The loop [for i in range(num_edges)] of [set_edges_data_<name>],
    reading [us[i]], [vs[i]] and [values[i]]; a pair that is not an edge
    ends in the abort of [edge_prop] ([KeyError] here). *)
Fixpoint set_edges_loop (name : string) (g : graph) (us vs : list Z)
    (vals : list val) (i fuel : nat) : graph * pyret unit :=
  match fuel with
  | O => (g, Ret tt)
  | S fuel' =>
      match nth_error us i, nth_error vs i, nth_error vals i with
      | Some u, Some v, Some x =>
          let (g1, r) := set_edge_data name g u v x in
          match r with
          | Ret _ => set_edges_loop name g1 us vs vals (S i) fuel'
          | Raise e => (g1, Raise e)
          end
      | _, _, _ => (g, Raise IndexError)
      end
  end.

(** [set_edges_data_<name>(us, vs, values)]: [assert len(us) == len(vs)],
    then [num_edges = len(us)] iterations. *)
Definition set_edges_data (name : string) (g : graph) (us vs : list Z)
    (vals : list val) : graph * pyret unit :=
  if Nat.eqb (List.length us) (List.length vs)
  then set_edges_loop name g us vs vals 0 (List.length us)
  else (g, Raise AssertionError).

(** ** Template expansion of the [NodeData(...)] / [EdgeData(...)] call *)

(** The argument list emitted by the Cheetah loop inside [add_${kind}]
    (lines 187-195): [sep] is set to [", "] only in the scalar branch. *)
Fixpoint add_one_ctor_args (sep : string) (fs : schema) : string :=
  match fs with
  | [] => ""
  | (name, d) :: fs' =>
      if is_array d
      then sep ++ "_p_" ++ name ++ add_one_ctor_args sep fs'
      else sep ++ name ++ add_one_ctor_args ", " fs'
  end.

(** The argument list emitted inside [add_${kind}s] (lines 233-241):
    [sep] is set to [", "] after every field. *)
Fixpoint add_many_ctor_args (sep : string) (fs : schema) : string :=
  match fs with
  | [] => ""
  | (name, d) :: fs' =>
      (if is_array d then sep ++ "_p_" ++ name else sep ++ name ++ "[i]")
        ++ add_many_ctor_args ", " fs'
  end.

(** Names in scope in the generated [add_node]: the parameters and the
    [cdef] pointers [_p_<name>] of the array fields. *)
Definition add_one_scope (fs : schema) : list string :=
  "self"%string :: "node"%string :: map fst fs
    ++ map (fun '(name, _) => ("_p_" ++ name)%string) (filter (fun '(_, d) => is_array d) fs).

(** ** Reachable states *)

(** One wrapper call, whatever its Python result. *)
Inductive step (s_n s_e : schema) : graph -> graph -> Prop :=
  | st_add_node g k args : step s_n s_e g (fst (add_node s_n g k args))
  | st_add_nodes g ks cols : step s_n s_e g (fst (add_nodes s_n g ks cols))
  | st_add_edge g uv args : step s_n s_e g (fst (add_edge s_e g uv args))
  | st_add_edges g es cols : step s_n s_e g (fst (add_edges s_e g es cols))
  | st_remove_node g k : step s_n s_e g (fst (remove_node g k))
  | st_set_node g f k x : step s_n s_e g (fst (set_node_data f g k x))
  | st_set_nodes g f ks xs : step s_n s_e g (fst (set_nodes_data f g ks xs))
  | st_set_edge g f u v x : step s_n s_e g (fst (set_edge_data f g u v x))
  | st_set_edges g f us vs xs : step s_n s_e g (fst (set_edges_data f g us vs xs)).

Inductive reachable (s_n s_e : schema) : graph -> Prop :=
  | reach_empty : reachable s_n s_e empty_graph
  | reach_step g g' : reachable s_n s_e g -> step s_n s_e g g' -> reachable s_n s_e g'.

(** The part of a map the invariant depends on: keys and containers. *)
Definition skel (l : list (Z * node_entry)) : list (Z * list (Z * nat)) :=
  map (fun '(k, e) => (k, nbrs e)) l.

(** [remove_nodes] on a map where [k]'s entry is [ek], written as one
    pass: the neighbours of [k] lose [k] from their containers, then [k]'s
    entry is erased. *)
Definition drop_nbr (k : Z) (e : node_entry) : node_entry :=
  mkEntry (nprop e) (filter (fun '(w, _) => negb (Z.eqb w k)) (nbrs e)).

Definition removed_adj (k : Z) (ek : node_entry) (l : list (Z * node_entry))
    : list (Z * node_entry) :=
  filter (fun '(w, _) => negb (Z.eqb w k))
    (map (fun '(w, e) => if existsb (Z.eqb w) (map fst (nbrs ek))
                         then (w, drop_nbr k e) else (w, e)) l).

(** Whether an edge pair has [k] as an endpoint, and the pair [u < v]
    naming the edge between [k] and [v]. *)
Definition incident (k : Z) (p : Z * Z) : bool := Z.eqb (fst p) k || Z.eqb (snd p) k.

Definition canon (k v : Z) : Z * Z := if Z.ltb k v then (k, v) else (v, k).

(** The record id [edge_prop(u, v)] goes through. *)
Definition edge_id (g : graph) (u v : Z) : option nat :=
  match lookup u (adj g) with
  | Some e => lookup v (nbrs e)
  | None => None
  end.

(** ** Structural invariant of the store *)

(** The neighbour relation of a map: [x] is in [w]'s container with id. *)
Definition adjrel (l : list (Z * node_entry)) (w x : Z) (id : nat) : Prop :=
  exists e, In (w, e) l /\ In (x, id) (nbrs e).

(** No self-loop, and each direction of an edge has its mirror entry with
    the same record id. *)
Definition sym_entries (l : list (Z * node_entry)) : Prop :=
  forall w x id, adjrel l w x id -> w <> x /\ adjrel l x w id.

Record wf (g : graph) : Prop := {
  wf_keys : NoDup (map fst (adj g));
  wf_nbrs : forall u e, In (u, e) (adj g) -> NoDup (map fst (nbrs e));
  wf_sym : sym_entries (adj g);
  wf_count : num_of_edges g = List.length (edges g)
}.

(** ** The bulk adders as the spec states them *)

(** [attrs_columns[f][i]] for every field [f], indexed from Python. *)
Fixpoint column_row (cols : list (list val)) (i : nat) : option (list val) :=
  match cols with
  | [] => Some []
  | col :: cols' =>
      match nth_error col i, column_row cols' i with
      | Some v, Some row => Some (v :: row)
      | _, _ => None
      end
  end.

(** "Equivalent to repeated [add_node] in index order": the scalar
    wrapper called on [keys[i]] and row [i] of the columns, stopping at
    the first exception. *)
Fixpoint add_nodes_repeated (s : schema) (g : graph) (keys : list Z)
    (cols : list (list val)) (i : nat) : graph * pyret unit :=
  match keys with
  | [] => (g, Ret tt)
  | k :: ks =>
      match column_row cols i with
      | None => (g, Raise IndexError)
      | Some row =>
          let (g1, r) := add_node s g k row in
          match r with
          | Ret _ => add_nodes_repeated s g1 ks cols (S i)
          | Raise e => (g1, Raise e)
          end
      end
  end.

(** "Same per-row semantics as [add_edge]": [add_edge] on each row. *)
Fixpoint add_edges_repeated (s : schema) (g : graph) (es : list (Z * Z))
    (cols : list (list val)) (i : nat) : graph * pyret unit :=
  match es with
  | [] => (g, Ret tt)
  | uv :: es' =>
      match column_row cols i with
      | None => (g, Raise IndexError)
      | Some row =>
          let (g1, r) := add_edge s g uv row in
          match r with
          | Ret _ => add_edges_repeated s g1 es' cols (S i)
          | Raise e => (g1, Raise e)
          end
      end
  end.

(** ** Further methods of [UndirectedGraph] *)

(** [nodes()] without data: the keys from [begin()] to [end()]. *)
Definition nodes (g : graph) : list Z := map fst (adj g).

(** [_neighbors(node, False)], which [edges(node)] yields from: the
    neighbour keys of [node] in container order. *)
Definition _neighbors (g : graph) (k : Z) : option (list Z) :=
  option_map (map fst) (neighbors g k).

(** [count_neighbors(nodes)]: [counts[i] = self._graph.count_neighbors(nodes[i])]. *)
Definition count_neighbors_array (g : graph) (keys : list Z) : list (option nat) :=
  map (count_neighbors g) keys.

(** The array a bulk getter returns: [np.empty] with [nrows] rows, of
    which the first [List.length written] were assigned, in order; the
    rows after them keep what [np.empty] left there. *)
Record column := mkColumn { written : list (option val); nrows : nat }.

(** Assigning the i-th value to [view[i]], i from 0, in an array of [n]
    rows; an index past the end raises [IndexError]. *)
Definition fill_column (n : nat) (vs : list (option val)) : pyret column :=
  if Nat.leb (List.length vs) n then Ret (mkColumn vs n) else Raise IndexError.

(** [get_nodes_data_<name>(nodes)]: with [nodes is None], [size()] rows
    read along the map from [begin()]; otherwise [len(nodes)] rows read
    through [node_prop(nodes[i])]. *)
Definition get_nodes_data (name : string) (g : graph) (keys : option (list Z))
    : pyret column :=
  match keys with
  | None => fill_column (size g) (map (fun '(_, e) => get_field (nprop e) name) (adj g))
  | Some ks => fill_column (List.length ks) (map (get_node_data name g) ks)
  end.

(** A raise of [RuntimeError(msg)], besides the results of [pyret]. *)
Inductive rtret (A : Type) := RtOk (r : pyret A) | RuntimeError (msg : string).
Arguments RtOk {A} r.
Arguments RuntimeError {A} msg.

(** Field [name] of the edge record with id [id] ([prop().<name>]). *)
Definition prop_field (name : string) (g : graph) (id : nat) : option val :=
  match lookup_nat id (eprops g) with Some r => get_field r name | None => None end.

(** The walk over all edges shared by [edges(data=True)] and
    [get_edges_data_<name>]: for each node [u] in map order, each
    neighbour [v] in container order with [u < v], the pair and the id of
    the record [deref(it).second.prop()] refers to. *)
Definition edge_targets (g : graph) : list ((Z * Z) * nat) :=
  flat_map (fun '(u, e) => map (fun '(v, id) => ((u, v), id))
                                 (filter (fun '(v, _) => Z.ltb u v) (nbrs e))) (adj g).

(** The rows [view[i] = deref(it).second.prop().<name>] of that walk. *)
Definition edge_rows (name : string) (g : graph) : list (option val) :=
  map (fun '(_, id) => prop_field name g id) (edge_targets g).

(** The loop [for i in range(num_edges)], [num_edges = len(us)], reading
    [edge_prop(us[i], vs[i])]; [vs[i]] past the end of [vs] raises
    [IndexError].  A pair that is not an edge aborts in [edge_prop]; its
    row is [None] here. *)
Fixpoint pair_rows (name : string) (g : graph) (us vs : list Z)
    : pyret (list (option val)) :=
  match us, vs with
  | [], _ => Ret []
  | _ :: _, [] => Raise IndexError
  | u :: us', v :: vs' =>
      match pair_rows name g us' vs' with
      | Ret rows => Ret (get_edge_data name g u v :: rows)
      | Raise e => Raise e
      end
  end.

(** [get_edges_data_<name>(us, vs)]. *)
Definition get_edges_data (name : string) (g : graph) (us vs : option (list Z))
    : rtret column :=
  match us, vs with
  | None, None => RtOk (fill_column (num_edges g) (edge_rows name g))
  | Some us', Some vs' =>
      RtOk (match pair_rows name g us' vs' with
            | Ret rows => fill_column (List.length us') rows
            | Raise e => Raise e
            end)
  | _, _ => RuntimeError "Either both us and vs are None, or neither"
  end.

(** The data generators ([nodes(data=True)], [edges(data=True)]) create
    one view object before their loop, call [set_ptr] on it before every
    [yield], and yield that same object each time.  [run_view_gen] runs
    such a generator to its end ([list(gen)]): the keys it yielded, and
    the target the view points at afterwards. *)
Fixpoint run_view_gen {K P : Type} (targets : list (K * P)) (ptr : option P)
    : list K * option P :=
  match targets with
  | [] => ([], ptr)
  | (k, p) :: ts => let (ks, last) := run_view_gen ts (Some p) in (k :: ks, last)
  end.

(** [[(k, d.<name>) for k, d in gen]]: each view read right after its
    [yield]. *)
Definition read_lazily {K P : Type} (read : P -> option val) (targets : list (K * P))
    : list (K * option val) :=
  map (fun '(k, p) => (k, read p)) targets.

(** [[(k, d.<name>) for k, d in list(gen)]]: every view read once the
    generator is exhausted. *)
Definition read_collected {K P : Type} (read : P -> option val) (targets : list (K * P))
    : list (K * option val) :=
  let (ks, ptr) := run_view_gen targets None in
  map (fun k => (k, match ptr with Some p => read p | None => None end)) ks.

(** The targets of [nodes(data=True)]: [&node_prop(it)] for each node. *)
Definition node_targets (g : graph) : list (Z * record) :=
  map (fun '(k, e) => (k, nprop e)) (adj g).

(** The argument each field should contribute to [NodeData(...)] /
    [EdgeData(...)] in [add_${kind}] and in [add_${kind}s]. *)
Definition one_arg (f : string * dtype) : string :=
  if is_array (snd f) then ("_p_" ++ fst f)%string else fst f.

Definition many_arg (f : string * dtype) : string :=
  if is_array (snd f) then ("_p_" ++ fst f)%string else (fst f ++ "[i]")%string.

(** The value [set_nodes_data_<name>(nodes, values)] leaves on [k]: that of
    the last [i] with [nodes[i] == k], if any. *)
Definition last_assigned (ks : list Z) (vals : list val) (k : Z) : option val :=
  fold_left (fun acc '(k', x) => if Z.eqb k' k then Some x else acc) (combine ks vals) None.

(** ** Sample states *)

(** The example schema of the spec (8), node side: a position array
    followed by a scalar field. *)
Definition position_intensity : schema :=
  [("position"%string, DArray 3); ("intensity"%string, DScalar)].

Definition weight_schema : schema := [("weight"%string, DScalar)].

(** Nodes 0, 1, 2 added one by one. *)
Definition three_nodes : graph :=
  fst (add_node [] (fst (add_node [] (fst (add_node [] empty_graph 0 [])) 1 [])) 2 []).

(** Edges (0, 1) then (0, 2), and the same edges as (0, 2) then (1, 0). *)
Definition edges_01_02 : graph :=
  fst (add_edge [] (fst (add_edge [] three_nodes (0, 1) [])) (0, 2) []).

Definition edges_02_10 : graph :=
  fst (add_edge [] (fst (add_edge [] three_nodes (0, 2) [])) (1, 0) []).

(** Nodes 0, 1 joined by an edge of weight 0. *)
Definition weighted_pair : graph :=
  fst (add_edge weight_schema
         (fst (add_nodes [] empty_graph [0; 1] [])) (0, 1) [VScalar 0]).

Definition score_schema : schema := [("score"%string, DScalar)].

(** Nodes 0, 1, 2 with scores 10, 11, 12, then the path 0 - 1 - 2 with
    weights 5 and 6. *)
Definition scored_nodes : graph :=
  fst (add_nodes score_schema empty_graph [0; 1; 2] [[VScalar 10; VScalar 11; VScalar 12]]).

Definition scored_path : graph :=
  fst (add_edges weight_schema scored_nodes [(0, 1); (1, 2)] [[VScalar 5; VScalar 6]]).

(** ** Association-list facts *)

Section Assoc.
Context {A : Type}.

Lemma lookup_In (k : Z) (a : A) (l : list (Z * A)) :
  lookup k l = Some a -> In (k, a) l.
Proof.
  induction l as [|[k' a'] l IH]; simpl; [discriminate|].
  destruct (Z.eqb_spec k' k); [intros H; inversion H; subst; auto | auto].
Qed.

Lemma In_lookup (k : Z) (a : A) (l : list (Z * A)) :
  NoDup (map fst l) -> In (k, a) l -> lookup k l = Some a.
Proof.
  induction l as [|[k' a'] l IH]; simpl; [tauto|].
  intros Hnd Hin; inversion Hnd as [|? ? Hni Hnd']; subst.
  destruct (Z.eqb_spec k' k) as [->|Hne]; destruct Hin as [Heq|Hin].
  - inversion Heq; subst; reflexivity.
  - exfalso; apply Hni; apply (in_map fst _ _ Hin).
  - inversion Heq; subst; congruence.
  - auto.
Qed.

Lemma lookup_None (k : Z) (l : list (Z * A)) :
  lookup k l = None <-> ~ In k (map fst l).
Proof.
  induction l as [|[k' a'] l IH]; simpl; [tauto|].
  destruct (Z.eqb_spec k' k); split; intros H.
  - discriminate.
  - exfalso; auto.
  - intros [E|E]; [congruence | apply IH in H; auto].
  - apply IH; auto.
Qed.

Lemma lookup_Some_in_keys (k : Z) (l : list (Z * A)) :
  (exists a, In (k, a) l) -> exists a, lookup k l = Some a.
Proof.
  intros [a Ha]; destruct (lookup k l) as [b|] eqn:E; [eauto|].
  apply lookup_None in E; exfalso; apply E, (in_map fst _ _ Ha).
Qed.

Lemma NoDup_fst_filter (p : Z * A -> bool) (l : list (Z * A)) :
  NoDup (map fst l) -> NoDup (map fst (filter p l)).
Proof.
  induction l as [|x l IH]; simpl; [auto|].
  intros Hnd; inversion Hnd as [|? ? Hni Hnd']; subst.
  destruct (p x); simpl; [constructor|]; auto.
  intros Hin; apply Hni; apply in_map_iff in Hin as [y [Hy Hin]].
  apply filter_In in Hin as [Hin _]; rewrite <- Hy; apply in_map; auto.
Qed.

End Assoc.

Lemma NoDup_same_length {B} (l1 l2 : list B) :
  NoDup l1 -> NoDup l2 -> (forall x, In x l1 <-> In x l2) ->
  List.length l1 = List.length l2.
Proof.
  intros H1 H2 Hiff; apply Nat.le_antisymm; apply NoDup_incl_length; auto;
    intros x Hx; apply Hiff; auto.
Qed.

Lemma map_fst_update_entry k f l : map fst (update_entry k f l) = map fst l.
Proof.
  unfold update_entry; rewrite map_map; apply map_ext.
  intros [w e]; destruct (Z.eqb w k); reflexivity.
Qed.

Lemma In_update_entry k f l w e' :
  In (w, e') (update_entry k f l) <->
  exists e, In (w, e) l /\ e' = (if Z.eqb w k then f e else e).
Proof.
  unfold update_entry; rewrite in_map_iff; split.
  - intros [[w0 e0] [Heq Hin]]; exists e0.
    destruct (Z.eqb w0 k) eqn:E; inversion Heq; subst; rewrite E; auto.
  - intros [e [Hin ->]]; exists (w, e); split; auto.
    destruct (Z.eqb w k); reflexivity.
Qed.

Lemma In_edges l a b :
  In (a, b) (flat_map (fun '(u, e) => edges_of_node u e) l) <->
  a < b /\ exists id, adjrel l a b id.
Proof.
  rewrite in_flat_map; split.
  - intros [[u e] [Hin Hab]]; unfold edges_of_node in Hab.
    apply in_map_iff in Hab as [[v id] [Heq Hv]]; inversion Heq; subst.
    apply filter_In in Hv as [Hv Hlt]; apply Z.ltb_lt in Hlt.
    split; [auto | exists id, e; auto].
  - intros [Hlt [id [e [Hin Hv]]]]; exists (a, e); split; auto.
    unfold edges_of_node; apply in_map_iff; exists (b, id); split; auto.
    apply filter_In; split; auto; apply Z.ltb_lt; auto.
Qed.

Lemma NoDup_map_inj {B C} (f : B -> C) (l : list B) :
  (forall x y, f x = f y -> x = y) -> NoDup l -> NoDup (map f l).
Proof.
  intros Hinj; induction 1 as [|x l Hni Hnd IH]; simpl; constructor; auto.
  intros Hin; apply in_map_iff in Hin as [y [Hy Hin]].
  apply Hinj in Hy; subst; auto.
Qed.

Lemma edges_of_node_NoDup u e :
  NoDup (map fst (nbrs e)) -> NoDup (edges_of_node u e).
Proof.
  unfold edges_of_node; intros Hnd.
  assert (Hf : map (fun '(v, _) => (u, v)) (filter (fun '(v, _) => Z.ltb u v) (nbrs e))
             = map (fun v => (u, v)) (map fst (filter (fun '(v, _) => Z.ltb u v) (nbrs e)))).
  { rewrite map_map; apply map_ext; intros [v id]; reflexivity. }
  rewrite Hf; apply NoDup_map_inj; [intros x y H; inversion H; auto|].
  apply NoDup_fst_filter; auto.
Qed.

Lemma edges_NoDup l :
  NoDup (map fst l) -> (forall u e, In (u, e) l -> NoDup (map fst (nbrs e))) ->
  NoDup (flat_map (fun '(u, e) => edges_of_node u e) l).
Proof.
  induction l as [|[u e] l IH]; simpl; [constructor|].
  intros Hnd Hnb; inversion Hnd as [|? ? Hni Hnd']; subst.
  apply NoDup_app.
  - apply edges_of_node_NoDup; eauto.
  - apply IH; eauto.
  - intros [a b] Ha Hb.
    unfold edges_of_node in Ha; apply in_map_iff in Ha as [[v id] [Heq _]].
    inversion Heq; subst.
    apply In_edges in Hb as [_ [id' [e' [Hin _]]]].
    apply Hni, (in_map fst _ _ Hin).
Qed.

Lemma has_edge_adjrel g u v :
  NoDup (map fst (adj g)) ->
  has_edge g u v = true <-> exists id, adjrel (adj g) u v id.
Proof.
  intros Hnd; unfold has_edge; split.
  - destruct (lookup u (adj g)) as [e|] eqn:Eu; [|discriminate].
    destruct (lookup v (nbrs e)) as [id|] eqn:Ev; [|discriminate].
    intros _; exists id, e; split; apply lookup_In; auto.
  - intros [id [e [Hin Hv]]]; rewrite (In_lookup _ _ _ Hnd Hin).
    destruct (lookup v (nbrs e)) eqn:Ev; [reflexivity|].
    apply lookup_None in Ev; exfalso; apply Ev, (in_map fst _ _ Hv).
Qed.

Lemma mem_node_In g k : mem_node g k = true <-> In k (map fst (adj g)).
Proof.
  unfold mem_node; destruct (lookup k (adj g)) as [e|] eqn:E; split; intros H.
  - apply lookup_In in E; apply (in_map fst _ _ E).
  - reflexivity.
  - discriminate.
  - apply lookup_None in E; contradiction.
Qed.

Lemma skel_keys l : map fst (skel l) = map fst l.
Proof. unfold skel; rewrite map_map; apply map_ext; intros [k e]; reflexivity. Qed.

Lemma skel_In l w ns : In (w, ns) (skel l) <-> exists e, In (w, e) l /\ nbrs e = ns.
Proof.
  unfold skel; rewrite in_map_iff; split.
  - intros [[k e] [Heq Hin]]; inversion Heq; subst; eauto.
  - intros [e [Hin <-]]; exists (w, e); auto.
Qed.

Lemma edges_skel l1 l2 :
  skel l1 = skel l2 ->
  flat_map (fun '(u, e) => edges_of_node u e) l1 =
  flat_map (fun '(u, e) => edges_of_node u e) l2.
Proof.
  revert l2; induction l1 as [|[u e] l1 IH]; intros [|[u' e'] l2]; simpl;
    try discriminate; auto.
  intros H; inversion H as [[Hu Hn Hs]]; subst.
  f_equal; [unfold edges_of_node; rewrite Hn; reflexivity | apply IH; auto].
Qed.

Lemma adjrel_skel l1 l2 w x id :
  skel l1 = skel l2 -> adjrel l1 w x id -> adjrel l2 w x id.
Proof.
  intros Hs [e [Hin Hx]].
  assert (H : In (w, nbrs e) (skel l2)) by (rewrite <- Hs; apply skel_In; eauto).
  apply skel_In in H as [e' [Hin' He']]; exists e'; rewrite He'; auto.
Qed.

Lemma wf_skel g g' :
  skel (adj g') = skel (adj g) -> num_of_edges g' = num_of_edges g -> wf g -> wf g'.
Proof.
  intros Hs Hn [Hk Hnb Hsym Hc]; constructor.
  - rewrite <- skel_keys, Hs, skel_keys; auto.
  - intros u e Hin.
    assert (H : In (u, nbrs e) (skel (adj g))) by (rewrite <- Hs; apply skel_In; eauto).
    apply skel_In in H as [e0 [Hin0 <-]]; eauto.
  - intros w x id H; apply (adjrel_skel _ _ _ _ _ Hs) in H.
    destruct (Hsym _ _ _ H) as [Hne H']; split; auto.
    apply (adjrel_skel (adj g)); auto.
  - rewrite Hn, Hc; unfold edges; f_equal; apply edges_skel; auto.
Qed.

(** ** Preservation of the invariant by the store operations *)

Lemma adjrel_app_fresh l k p w x id :
  adjrel (l ++ [(k, mkEntry p [])]) w x id <-> adjrel l w x id.
Proof.
  split.
  - intros [e [Hin Hx]]; apply in_app_iff in Hin as [Hin|[Heq|[]]].
    + exists e; auto.
    + inversion Heq; subst; destruct Hx.
  - intros [e [Hin Hx]]; exists e; rewrite in_app_iff; auto.
Qed.

Lemma wf_add_node_with_prop g k p : wf g -> wf (fst (add_node_with_prop g k p)).
Proof.
  intros [Hk Hnb Hsym Hc]; unfold add_node_with_prop.
  destruct (mem_node g k) eqn:Hm; [constructor; auto|].
  assert (Hni : ~ In k (map fst (adj g))) by (rewrite <- mem_node_In; congruence).
  constructor; simpl.
  - rewrite map_app; apply NoDup_app; auto; [repeat constructor; simpl; auto|].
    intros a Ha [<-|[]]; auto.
  - intros u e Hin; apply in_app_iff in Hin as [Hin|[Heq|[]]]; eauto.
    inversion Heq; subst; constructor.
  - intros w x id H; apply adjrel_app_fresh in H.
    destruct (Hsym _ _ _ H) as [Hne H']; split; auto; apply adjrel_app_fresh; auto.
  - rewrite Hc; unfold edges; simpl; rewrite flat_map_app; simpl.
    rewrite app_nil_r; reflexivity.
Qed.

Lemma adjrel_add_edge l u v i w x id :
  NoDup (map fst l) -> In u (map fst l) -> In v (map fst l) -> u <> v ->
  adjrel (update_entry v (fun e => mkEntry (nprop e) (nbrs e ++ [(u, i)]))
            (update_entry u (fun e => mkEntry (nprop e) (nbrs e ++ [(v, i)])) l)) w x id
  <-> adjrel l w x id \/ (w = u /\ x = v /\ id = i) \/ (w = v /\ x = u /\ id = i).
Proof.
  intros Hnd Hu Hv Huv; unfold adjrel; split.
  - intros [e2 [Hin2 Hx]].
    apply In_update_entry in Hin2 as [e1 [Hin1 ->]].
    apply In_update_entry in Hin1 as [e0 [Hin0 ->]].
    destruct (Z.eqb_spec w v) as [->|Hwv]; destruct (Z.eqb_spec v u) as [Evu|Hvu];
      try congruence; simpl in Hx.
    + apply in_app_iff in Hx as [Hx|[Heq|[]]]; [left; eauto|].
      inversion Heq; subst; right; right; auto.
    + destruct (Z.eqb_spec w u) as [->|Hwu]; simpl in Hx; [|left; eauto].
      apply in_app_iff in Hx as [Hx|[Heq|[]]]; [left; eauto|].
      inversion Heq; subst; right; left; auto.
  - assert (Hupd : forall w0 e0, In (w0, e0) l ->
      In (w0, if Z.eqb w0 v then mkEntry (nprop (if Z.eqb w0 u then mkEntry (nprop e0) (nbrs e0 ++ [(v, i)]) else e0))
                                         (nbrs (if Z.eqb w0 u then mkEntry (nprop e0) (nbrs e0 ++ [(v, i)]) else e0) ++ [(u, i)])
                  else (if Z.eqb w0 u then mkEntry (nprop e0) (nbrs e0 ++ [(v, i)]) else e0))
         (update_entry v (fun e => mkEntry (nprop e) (nbrs e ++ [(u, i)]))
            (update_entry u (fun e => mkEntry (nprop e) (nbrs e ++ [(v, i)])) l))).
    { intros w0 e0 Hin; apply In_update_entry; eexists; split; [|reflexivity].
      apply In_update_entry; eauto. }
    intros [[e0 [Hin Hx]]|[[-> [-> ->]]|[-> [-> ->]]]].
    + eexists; split; [apply Hupd; eauto|].
      destruct (Z.eqb w v), (Z.eqb w u); simpl; rewrite ?in_app_iff; auto.
    + apply in_map_iff in Hu as [[u0 eu] [Hu0 Hinu]]; simpl in Hu0; subst u0.
      eexists; split; [apply Hupd; eauto|].
      rewrite Z.eqb_refl; destruct (Z.eqb_spec u v); [congruence|].
      simpl; rewrite in_app_iff; simpl; auto.
    + apply in_map_iff in Hv as [[v0 ev] [Hv0 Hinv]]; simpl in Hv0; subst v0.
      eexists; split; [apply Hupd; eauto|].
      rewrite Z.eqb_refl; simpl; rewrite in_app_iff; simpl; auto.
Qed.

Lemma NoDup_fst_snoc (ns : list (Z * nat)) x i :
  NoDup (map fst ns) -> ~ In x (map fst ns) -> NoDup (map fst (ns ++ [(x, i)])).
Proof.
  intros Hnd Hni; rewrite map_app; apply NoDup_app; auto; [repeat constructor; simpl; auto|].
  intros a Ha [<-|[]]; auto.
Qed.

Lemma adjrel_In_fst l w x id : adjrel l w x id -> In w (map fst l).
Proof. intros [e [Hin _]]; apply (in_map fst _ _ Hin). Qed.

Lemma adjrel_nbr l w e x : In (w, e) l -> In x (map fst (nbrs e)) -> exists id, adjrel l w x id.
Proof.
  intros Hin Hx; apply in_map_iff in Hx as [[x0 id] [Hx0 Hx]]; simpl in Hx0; subst.
  exists id, e; auto.
Qed.

Lemma wf_add_edge_with_prop g u v p : wf g -> wf (fst (add_edge_with_prop g u v p)).
Proof.
  intros Hwf; pose proof Hwf as [Hk Hnb Hsym Hc]; unfold add_edge_with_prop.
  destruct (Z.eqb_spec u v) as [|Huv]; [exact Hwf|].
  destruct (mem_node g u && mem_node g v) eqn:Hm; [|exact Hwf]; simpl negb; cbv iota.
  apply andb_true_iff in Hm as [Hmu Hmv]; apply mem_node_In in Hmu, Hmv.
  destruct (has_edge g u v) eqn:He; [exact Hwf|].
  assert (Hno : forall id, ~ adjrel (adj g) u v id).
  { intros id H; assert (Ht : has_edge g u v = true)
      by (apply has_edge_adjrel; eauto); congruence. }
  set (l' := update_entry v _ _).
  assert (Hk' : NoDup (map fst l')) by (unfold l'; rewrite !map_fst_update_entry; auto).
  assert (Hnb' : forall w e, In (w, e) l' -> NoDup (map fst (nbrs e))).
  { intros w e2 Hin2; unfold l' in Hin2.
    apply In_update_entry in Hin2 as [e1 [Hin1 ->]].
    apply In_update_entry in Hin1 as [e0 [Hin0 ->]].
    destruct (Z.eqb_spec w v) as [->|Hwv]; destruct (Z.eqb_spec v u); try congruence.
    - simpl; apply NoDup_fst_snoc; eauto.
      intros Hx; destruct (adjrel_nbr _ _ _ _ Hin0 Hx) as [id Hr].
      apply Hsym in Hr as [_ Hr]; apply (Hno id); auto.
    - destruct (Z.eqb_spec w u) as [->|]; simpl; eauto.
      apply NoDup_fst_snoc; eauto.
      intros Hx; destruct (adjrel_nbr _ _ _ _ Hin0 Hx) as [id Hr]; apply (Hno id); auto. }
  constructor; simpl; auto.
  - intros w x id Hr; unfold l' in Hr; rewrite adjrel_add_edge in Hr by auto.
    destruct Hr as [Hr|[[-> [-> ->]]|[-> [-> ->]]]].
    + destruct (Hsym _ _ _ Hr) as [Hne Hr']; split; auto.
      unfold l'; rewrite adjrel_add_edge by auto; auto.
    + split; auto; unfold l'; rewrite adjrel_add_edge by auto; auto.
    + split; auto; unfold l'; rewrite adjrel_add_edge by auto; auto.
  - rewrite Hc; unfold edges.
    set (c := if Z.ltb u v then (u, v) else (v, u)).
    assert (Hnd : NoDup (flat_map (fun '(u0, e) => edges_of_node u0 e) (adj g)))
      by (apply edges_NoDup; auto).
    assert (Hcn : ~ In c (flat_map (fun '(u0, e) => edges_of_node u0 e) (adj g))).
    { unfold c; destruct (Z.ltb_spec u v); intros Hin; apply In_edges in Hin as [_ [id Hr]].
      - apply (Hno id); auto.
      - apply Hsym in Hr as [_ Hr]; apply (Hno id); auto. }
    change (S (List.length (flat_map (fun '(u0, e) => edges_of_node u0 e) (adj g))))
      with (List.length (c :: flat_map (fun '(u0, e) => edges_of_node u0 e) (adj g))).
    apply NoDup_same_length; [constructor; auto| apply edges_NoDup; auto |].
    intros [a b]; simpl; rewrite !In_edges.
    split.
    + intros [Heq|[Hab [id Hr]]].
      * unfold c in Heq; destruct (Z.ltb_spec u v); inversion Heq; subst;
          (split; [lia|]); exists (next_eid g); unfold l';
          rewrite adjrel_add_edge by auto; auto.
      * split; auto; exists id; unfold l'; rewrite adjrel_add_edge by auto; auto.
    + intros [Hab [id Hr]]; unfold l' in Hr; rewrite adjrel_add_edge in Hr by auto.
      destruct Hr as [Hr|[[-> [-> ->]]|[-> [-> ->]]]]; [right; eauto| |];
        left; unfold c; destruct (Z.ltb_spec u v); try lia; auto.
Qed.

Lemma fold_update_entry (f : node_entry -> node_entry) (ns : list (Z * nat)) l :
  (forall e, f (f e) = f e) ->
  fold_left (fun l '(v, _) => update_entry v f l) ns l =
  map (fun '(w, e) => if existsb (Z.eqb w) (map fst ns) then (w, f e) else (w, e)) l.
Proof.
  intros Hf; revert l; induction ns as [|[v i] ns IH]; intros l; simpl.
  - induction l as [|[w e] l IHl]; simpl; f_equal; auto.
  - rewrite IH; unfold update_entry; rewrite map_map; apply map_ext.
    intros [w e]; destruct (Z.eqb_spec w v) as [->|]; rewrite ?Z.eqb_refl; simpl.
    + destruct (existsb (Z.eqb v) (map fst ns)); rewrite ?Hf; reflexivity.
    + reflexivity.
Qed.

Section Remove.
Variables (g : graph) (k : Z) (ek : node_entry).
Hypothesis Hwf : wf g.
Hypothesis Hek : lookup k (adj g) = Some ek.


Lemma remove_adj : adj (fst (remove_nodes g k)) = (removed_adj k ek (adj g)).
Proof.
  unfold remove_nodes; rewrite Hek; simpl; unfold removed_adj; f_equal.
  apply fold_update_entry; intros e; unfold drop_nbr; simpl; f_equal.
  induction (nbrs e) as [|[w i] ns IH]; simpl; [reflexivity|].
  destruct (Z.eqb w k) eqn:E; simpl; rewrite ?E; simpl; rewrite ?IH; reflexivity.
Qed.

Lemma In_removed_adj w e' :
  In (w, e') (removed_adj k ek (adj g)) <-> w <> k /\ exists e, In (w, e) (adj g) /\
    e' = (if existsb (Z.eqb w) (map fst (nbrs ek)) then drop_nbr k e else e).
Proof.
  unfold removed_adj; rewrite filter_In; rewrite in_map_iff; split.
  - intros [[[w0 e0] [Heq Hin]] Hne]; rewrite negb_true_iff, Z.eqb_neq in Hne.
    split; auto; exists e0.
    destruct (existsb (Z.eqb w0) _) eqn:E; inversion Heq; subst; rewrite E; auto.
  - intros [Hne [e [Hin ->]]]; split; [|rewrite negb_true_iff, Z.eqb_neq; auto].
    exists (w, e); split; auto; destruct (existsb _ _); reflexivity.
Qed.

Lemma adjrel_remove w x id :
  adjrel (removed_adj k ek (adj g)) w x id <-> adjrel (adj g) w x id /\ w <> k /\ x <> k.
Proof.
  destruct Hwf as [Hk Hnb Hsym Hc].
  assert (Hekin : In (k, ek) (adj g)) by (apply lookup_In; auto).
  split.
  - intros [e' [Hin Hx]]; apply In_removed_adj in Hin as [Hne [e [Hin ->]]].
    destruct (existsb (Z.eqb w) (map fst (nbrs ek))) eqn:E; simpl in Hx.
    + apply filter_In in Hx as [Hx Hxk]; rewrite negb_true_iff, Z.eqb_neq in Hxk.
      repeat split; auto; exists e; auto.
    + repeat split; auto; [exists e; auto|].
      intros ->; assert (Hr : adjrel (adj g) w k id) by (exists e; auto).
      apply Hsym in Hr as [_ [e1 [Hin1 Hw1]]].
      rewrite (In_lookup _ _ _ Hk Hin1) in Hek; inversion Hek; subst.
      assert (Ht : existsb (Z.eqb w) (map fst (nbrs ek)) = true).
      { apply existsb_exists; exists w; split; [apply (in_map fst _ _ Hw1)|apply Z.eqb_refl]. }
      congruence.
  - intros [[e [Hin Hx]] [Hwk Hxk]].
    eexists; split; [apply In_removed_adj; split; [auto|exists e; split; [exact Hin|reflexivity]]|].
    destruct (existsb _ _); simpl; auto.
    apply filter_In; split; auto; rewrite negb_true_iff, Z.eqb_neq; auto.
Qed.

Lemma removed_adj_keys : NoDup (map fst (removed_adj k ek (adj g))).
Proof.
  destruct Hwf as [Hk _ _ _]; unfold removed_adj; apply NoDup_fst_filter.
  rewrite map_map.
  replace (map (fun x => fst (let '(w, e) := x in if existsb (Z.eqb w) (map fst (nbrs ek))
                                                   then (w, drop_nbr k e) else (w, e))) (adj g))
    with (map fst (adj g)); auto.
  apply map_ext; intros [w e]; destruct (existsb _ _); reflexivity.
Qed.

Lemma removed_adj_nbrs u e' : In (u, e') (removed_adj k ek (adj g)) -> NoDup (map fst (nbrs e')).
Proof.
  destruct Hwf as [_ Hnb _ _]; intros Hin; apply In_removed_adj in Hin as [_ [e [Hin ->]]].
  destruct (existsb _ _); simpl; eauto.
  apply NoDup_fst_filter; eauto.
Qed.

End Remove.

Lemma canon_inj k v1 v2 : canon k v1 = canon k v2 -> v1 = v2.
Proof.
  unfold canon; destruct (Z.ltb_spec k v1), (Z.ltb_spec k v2); intros Heq;
    inversion Heq; subst; auto; lia.
Qed.

(** The edges incident to [k] are in bijection with [k]'s container. *)
Lemma incident_edges_length g k ek :
  wf g -> lookup k (adj g) = Some ek ->
  List.length (filter (incident k) (edges g)) = List.length (nbrs ek).
Proof.
  intros [Hk Hnb Hsym Hc] Hek.
  assert (Hekin : In (k, ek) (adj g)) by (apply lookup_In; auto).
  assert (Huniq : forall e, In (k, e) (adj g) -> e = ek).
  { intros e Hin; rewrite (In_lookup _ _ _ Hk Hin) in Hek; congruence. }
  rewrite <- (length_map fst (nbrs ek)), <- (length_map (canon k) (map fst (nbrs ek))).
  apply NoDup_same_length.
  - apply NoDup_filter, edges_NoDup; auto.
  - apply NoDup_map_inj; [apply canon_inj | eauto].
  - intros [a b]; rewrite filter_In; unfold edges; rewrite In_edges, in_map_iff.
    unfold incident; simpl; rewrite orb_true_iff, !Z.eqb_eq; split.
    + intros [[Hab [id Hr]] [-> | ->]].
      * destruct Hr as [e [Hin Hb]]; apply Huniq in Hin; subst e.
        exists b; split; [unfold canon; destruct (Z.ltb_spec k b); auto; lia|].
        apply (in_map fst _ _ Hb).
      * apply Hsym in Hr as [_ [e [Hin Ha]]]; apply Huniq in Hin; subst e.
        exists a; split; [unfold canon; destruct (Z.ltb_spec k a); auto; lia|].
        apply (in_map fst _ _ Ha).
    + intros [v [Hcv Hv]]; apply in_map_iff in Hv as [[v0 id] [Hv0 Hv]]; simpl in Hv0; subst v0.
      assert (Hr : adjrel (adj g) k v id) by (exists ek; auto).
      destruct (Hsym _ _ _ Hr) as [Hne Hr'].
      unfold canon in Hcv; destruct (Z.ltb_spec k v); inversion Hcv; subst.
      * split; [split; [auto|eauto]|auto].
      * split; [split; [lia|eauto]|auto].
Qed.

Lemma wf_remove_nodes g k : wf g -> wf (fst (remove_nodes g k)).
Proof.
  intros Hwf; destruct (lookup k (adj g)) as [ek|] eqn:Hek;
    [|unfold remove_nodes; rewrite Hek; exact Hwf].
  pose proof Hwf as [Hk Hnb Hsym Hc].
  assert (Hkeys := removed_adj_keys g k ek Hwf).
  assert (Hnbs := removed_adj_nbrs g k ek Hwf).
  constructor; rewrite ?(remove_adj g k ek Hek).
  - auto.
  - auto.
  - intros w x id Hr; rewrite adjrel_remove in Hr by auto.
    destruct Hr as [Hr [Hw Hx]]; destruct (Hsym _ _ _ Hr) as [Hne Hr'].
    split; auto; rewrite adjrel_remove by auto; auto.
  - assert (Hnum : num_of_edges (fst (remove_nodes g k)) =
                    (num_of_edges g - List.length (nbrs ek))%nat)
      by (unfold remove_nodes; rewrite Hek; reflexivity).
    assert (Hl : List.length (filter (fun x => negb (incident k x)) (edges g)) =
                 List.length (edges (fst (remove_nodes g k)))).
    { unfold edges at 2; rewrite (remove_adj g k ek Hek).
      apply NoDup_same_length.
      - apply NoDup_filter, edges_NoDup; auto.
      - apply edges_NoDup; auto.
      - intros [a b]; rewrite filter_In; unfold edges; rewrite !In_edges.
        unfold incident; simpl; rewrite negb_true_iff, orb_false_iff, !Z.eqb_neq.
        split.
        + intros [[Hab [id Hr]] [Ha Hb]]; split; auto; exists id.
          rewrite adjrel_remove by auto; auto.
        + intros [Hab [id Hr]]; rewrite adjrel_remove in Hr by auto.
          destruct Hr as [Hr [Ha Hb]]; eauto. }
    rewrite Hnum, <- Hl, Hc.
    pose proof (filter_length (incident k) (edges g)) as Hf.
    rewrite (incident_edges_length g k ek Hwf Hek) in Hf.
    lia.
Qed.

(** ** Every wrapper call preserves the invariant *)

Lemma skel_update_nprop k name x l :
  skel (update_entry k (set_nprop name x) l) = skel l.
Proof.
  unfold skel, update_entry; rewrite map_map; apply map_ext.
  intros [w e]; destruct (Z.eqb w k); reflexivity.
Qed.

Lemma skel_assign_all name l vals i : skel (fst (assign_all name l vals i)) = skel l.
Proof.
  revert i; induction l as [|[k e] l IH]; intros i; simpl; [reflexivity|].
  destruct (nth_error vals i); [|reflexivity].
  specialize (IH (S i)); destruct (assign_all name l vals (S i)) as [l'' r].
  simpl in *; rewrite IH; reflexivity.
Qed.

Lemma wf_set_node_data name g k x : wf g -> wf (fst (set_node_data name g k x)).
Proof.
  unfold set_node_data; destruct (mem_node g k); [|auto].
  apply wf_skel; simpl; [apply skel_update_nprop | reflexivity].
Qed.

Lemma wf_assign_keys name g ks xs : wf g -> wf (fst (assign_keys name g ks xs)).
Proof.
  revert g xs; induction ks as [|k ks IH]; intros g [|x xs] Hwf; simpl; auto.
  pose proof (wf_set_node_data name g k x Hwf) as H1.
  destruct (set_node_data name g k x) as [g1 [a|e]]; simpl in *; auto.
Qed.

Lemma wf_set_nodes_data name g ks xs : wf g -> wf (fst (set_nodes_data name g ks xs)).
Proof.
  intros Hwf; unfold set_nodes_data; destruct ks as [ks|].
  - destruct (Nat.eqb _ _); [apply wf_assign_keys|]; auto.
  - pose proof (skel_assign_all name (adj g) xs 0) as Hs.
    destruct (assign_all name (adj g) xs 0) as [l r]; simpl in *.
    apply (wf_skel g); auto.
Qed.

Lemma wf_set_edge_data name g u v x : wf g -> wf (fst (set_edge_data name g u v x)).
Proof.
  intros Hwf; unfold set_edge_data.
  destruct (lookup u (adj g)) as [e|]; [|auto].
  destruct (lookup v (nbrs e)); [|auto].
  apply (wf_skel g); auto.
Qed.

Lemma wf_set_edges_loop name g us vs xs i fuel :
  wf g -> wf (fst (set_edges_loop name g us vs xs i fuel)).
Proof.
  revert g i; induction fuel as [|fuel IH]; intros g i Hwf; simpl; auto.
  destruct (nth_error us i), (nth_error vs i), (nth_error xs i); auto.
  pose proof (wf_set_edge_data name g z z0 v Hwf) as H1.
  destruct (set_edge_data name g z z0 v) as [g1 [a|e]]; simpl in *; auto.
Qed.

Lemma wf_set_edges_data name g us vs xs : wf g -> wf (fst (set_edges_data name g us vs xs)).
Proof.
  intros Hwf; unfold set_edges_data; destruct (Nat.eqb _ _);
    [apply wf_set_edges_loop|]; auto.
Qed.

Lemma wf_add_nodes_loop s g ks cols i fuel :
  wf g -> wf (fst (add_nodes_loop s g ks cols i fuel)).
Proof.
  revert g i; induction fuel as [|fuel IH]; intros g i Hwf; simpl; auto.
  destruct (nth_error ks i), (read_row s cols i); simpl; auto.
  apply IH, wf_add_node_with_prop; auto.
Qed.

Lemma wf_add_edges_loop s g es cols i fuel :
  wf g -> wf (fst (add_edges_loop s g es cols i fuel)).
Proof.
  revert g i; induction fuel as [|fuel IH]; intros g i Hwf; simpl; auto.
  destruct (nth_error es i) as [[u v]|], (read_row s cols i); simpl; auto.
  apply IH, wf_add_edge_with_prop; auto.
Qed.

Lemma wf_step s_n s_e g g' : wf g -> step s_n s_e g g' -> wf g'.
Proof.
  intros Hwf Hs; destruct Hs.
  - unfold add_node; destruct (args_ok _ _); simpl; [apply wf_add_node_with_prop|]; auto.
  - apply wf_add_nodes_loop; auto.
  - unfold add_edge; destruct (args_ok _ _); simpl; [apply wf_add_edge_with_prop|]; auto.
  - apply wf_add_edges_loop; auto.
  - apply wf_remove_nodes; auto.
  - apply wf_set_node_data; auto.
  - apply wf_set_nodes_data; auto.
  - apply wf_set_edge_data; auto.
  - apply wf_set_edges_data; auto.
Qed.

Lemma wf_empty : wf empty_graph.
Proof.
  constructor; simpl; [constructor | tauto | | reflexivity].
  intros w x id [e [[] _]].
Qed.

Lemma reachable_wf s_n s_e g : reachable s_n s_e g -> wf g.
Proof.
  induction 1 as [|g g' _ IH Hs]; [apply wf_empty | eapply wf_step; eauto].
Qed.

(** ** Consequences of the invariant *)

Lemma edge_id_adjrel g u v id :
  wf g -> edge_id g u v = Some id <-> adjrel (adj g) u v id.
Proof.
  intros [Hk Hnb _ _]; unfold edge_id; split.
  - destruct (lookup u (adj g)) as [e|] eqn:Eu; [|discriminate].
    intros Ev; exists e; split; apply lookup_In; auto.
  - intros [e [Hin Hv]]; rewrite (In_lookup _ _ _ Hk Hin).
    apply In_lookup; eauto.
Qed.

Lemma edge_id_sym g u v : wf g -> edge_id g u v = edge_id g v u.
Proof.
  intros Hwf; pose proof Hwf as [_ _ Hsym _].
  destruct (edge_id g u v) as [i|] eqn:E1, (edge_id g v u) as [j|] eqn:E2; auto.
  - apply edge_id_adjrel in E1; auto; apply Hsym in E1 as [_ E1].
    apply edge_id_adjrel in E1; auto; congruence.
  - apply edge_id_adjrel in E1; auto; apply Hsym in E1 as [_ E1].
    apply edge_id_adjrel in E1; auto; congruence.
  - apply edge_id_adjrel in E2; auto; apply Hsym in E2 as [_ E2].
    apply edge_id_adjrel in E2; auto; congruence.
Qed.

Lemma edge_prop_edge_id g u v :
  edge_prop g u v = match edge_id g u v with
                    | Some id => lookup_nat id (eprops g)
                    | None => None
                    end.
Proof.
  unfold edge_prop, edge_id; destruct (lookup u (adj g)); auto.
Qed.

Lemma edges_spec g u v :
  wf g -> In (u, v) (edges g) <-> u < v /\ has_edge g u v = true.
Proof.
  intros Hwf; unfold edges; rewrite In_edges.
  rewrite has_edge_adjrel by (apply Hwf); tauto.
Qed.

(** ** Claims *)

(** C6 (confirmed): in every reachable state, each stored edge joins two
    distinct existing nodes, in both directions; a node's container holds
    each neighbour at most once, so no parallel edge exists; hence the
    canonical edge list has no duplicate. *)
Theorem reachable_edges_simple (s_n s_e : schema) (g : graph) :
  reachable s_n s_e g ->
  (forall u v, has_edge g u v = true ->
     u <> v /\ mem_node g u = true /\ mem_node g v = true /\ has_edge g v u = true) /\
  (forall u e v, lookup u (adj g) = Some e ->
     (count_occ Z.eq_dec (map fst (nbrs e)) v <= 1)%nat) /\
  NoDup (edges g).
Proof.
  intros Hr; pose proof (reachable_wf _ _ _ Hr) as Hwf.
  pose proof Hwf as [Hk Hnb Hsym _]; split; [|split].
  - intros u v Huv; apply has_edge_adjrel in Huv as [id Hr1]; auto.
    destruct (Hsym _ _ _ Hr1) as [Hne Hr2].
    repeat split; auto.
    + apply mem_node_In, (adjrel_In_fst _ _ _ _ Hr1).
    + apply mem_node_In, (adjrel_In_fst _ _ _ _ Hr2).
    + apply has_edge_adjrel; eauto.
  - intros u e v He; apply lookup_In in He.
    apply (NoDup_count_occ Z.eq_dec); eauto.
  - apply edges_NoDup; auto.
Qed.

(** C1 (corrected): [edges()] without a node yields every edge of the
    graph once, as [(u, v)] with [u < v], and as many items as
    [num_edges()]. *)
Theorem edges_canonical_once (s_n s_e : schema) (g : graph) :
  reachable s_n s_e g ->
  NoDup (edges g) /\
  (forall u v, In (u, v) (edges g) <-> u < v /\ has_edge g u v = true) /\
  List.length (edges g) = num_edges g.
Proof.
  intros Hr; pose proof (reachable_wf _ _ _ Hr) as Hwf.
  split; [|split].
  - apply edges_NoDup; apply Hwf.
  - intros u v; apply edges_spec; auto.
  - symmetry; apply Hwf.
Qed.

(** C5 (confirmed): both orders of the endpoints reach the same edge
    record, so every field read through [get_edge_data_<name>(v, u)]
    equals the one read through [get_edge_data_<name>(u, v)]. *)
Theorem get_edge_data_symmetric (s_n s_e : schema) (g : graph) :
  reachable s_n s_e g ->
  forall name u v, get_edge_data name g v u = get_edge_data name g u v.
Proof.
  intros Hr name u v; pose proof (reachable_wf _ _ _ Hr) as Hwf.
  unfold get_edge_data; rewrite !edge_prop_edge_id, (edge_id_sym g v u Hwf).
  reflexivity.
Qed.

(** C3 (corrected): [remove_node(k)] always returns [None].  When [k] is a
    node of degree [d], afterwards [k] is gone, no pair of [edges()]
    mentions [k], and [num_edges()] has dropped by exactly [d] and still
    counts [edges()]; when [k] is absent the graph is left as it was. *)
Theorem remove_node_spec (s_n s_e : schema) (g : graph) (k : Z) :
  reachable s_n s_e g ->
  let g' := fst (remove_node g k) in
  snd (remove_node g k) = Ret tt /\
  match count_neighbors g k with
  | Some d =>
      mem_node g' k = false /\
      (forall u v, In (u, v) (edges g') -> u <> k /\ v <> k) /\
      (num_edges g' + d)%nat = num_edges g /\
      num_edges g' = List.length (edges g')
  | None => g' = g
  end.
Proof.
  intros Hr g'; pose proof (reachable_wf _ _ _ Hr) as Hwf.
  split; [reflexivity|].
  unfold count_neighbors; destruct (lookup k (adj g)) as [ek|] eqn:Hek; simpl.
  - assert (Hwf' : wf g') by (apply wf_remove_nodes; auto).
    assert (Hadj : adj g' = removed_adj k ek (adj g)) by (apply remove_adj; auto).
    split; [|split; [|split]].
    + destruct (mem_node g' k) eqn:Hm; auto.
      apply mem_node_In in Hm; rewrite Hadj in Hm.
      apply in_map_iff in Hm as [[w e'] [Hw Hin]]; simpl in Hw; subst w.
      apply In_removed_adj in Hin as [Hne _]; auto; congruence.
    + intros u v Huv; unfold edges in Huv; rewrite In_edges in Huv.
      destruct Huv as [_ [id Hr']]; rewrite Hadj in Hr'.
      apply adjrel_remove in Hr'; tauto.
    + assert (Hd := incident_edges_length g k ek Hwf Hek).
      assert (Hle := filter_length_le (incident k) (edges g)).
      unfold num_edges, g', remove_node, remove_nodes; rewrite Hek; simpl.
      destruct Hwf as [_ _ _ Hc]; lia.
    + apply Hwf'.
  - unfold g', remove_node, remove_nodes; rewrite Hek; reflexivity.
Qed.

(** C2 (corrected): [add_edge] reports no error to its caller: it returns
    [None] whatever the endpoints (only a memoryview argument without a
    component makes [&name[0]] raise [IndexError]); a self-loop, an absent
    endpoint or an existing edge leaves the graph as it was. *)
Theorem add_edge_silent (s : schema) (g : graph) (u v : Z) (args : list val) :
  snd (add_edge s g (u, v) args) = (if args_ok s args then Ret tt else Raise IndexError) /\
  (u = v \/ mem_node g u = false \/ mem_node g v = false \/ has_edge g u v = true ->
   fst (add_edge s g (u, v) args) = g).
Proof.
  unfold add_edge; simpl; destruct (args_ok s args); simpl; split; auto.
  intros Hrej; unfold add_edge_with_prop.
  destruct (Z.eqb_spec u v); [reflexivity|].
  destruct (mem_node g u) eqn:Hu, (mem_node g v) eqn:Hv; simpl; auto.
  destruct (has_edge g u v) eqn:He; [reflexivity|].
  exfalso; destruct Hrej as [|[|[|]]]; congruence.
Qed.

Lemma three_nodes_reachable : reachable [] [] three_nodes.
Proof.
  unfold three_nodes.
  eapply reach_step; [|apply st_add_node].
  eapply reach_step; [|apply st_add_node].
  eapply reach_step; [apply reach_empty|apply st_add_node].
Qed.

Lemma edges_01_02_reachable : reachable [] [] edges_01_02.
Proof.
  unfold edges_01_02.
  eapply reach_step; [|apply st_add_edge].
  eapply reach_step; [apply three_nodes_reachable|apply st_add_edge].
Qed.

Lemma edges_02_10_reachable : reachable [] [] edges_02_10.
Proof.
  unfold edges_02_10.
  eapply reach_step; [|apply st_add_edge].
  eapply reach_step; [apply three_nodes_reachable|apply st_add_edge].
Qed.

Lemma weighted_pair_reachable : reachable [] weight_schema weighted_pair.
Proof.
  unfold weighted_pair.
  eapply reach_step; [|apply st_add_edge].
  eapply reach_step; [apply reach_empty|apply st_add_nodes].
Qed.

(** Counterexample to C2: a self-loop, an absent endpoint and a repeated
    edge all return [None] instead of raising. *)
Lemma add_edge_errors_not_raised :
  snd (add_edge [] three_nodes (0, 0) []) = Ret tt /\
  snd (add_edge [] three_nodes (0, 7) []) = Ret tt /\
  mem_node three_nodes 7 = false /\
  has_edge edges_01_02 0 1 = true /\
  snd (add_edge [] edges_01_02 (0, 1) []) = Ret tt.
Proof. repeat split; reflexivity. Qed.

(** Counterexample to C1: the same nodes and the same edge set, inserted
    in another order, give [edges()] in another order. *)
Lemma edges_order_follows_insertion :
  reachable [] [] edges_01_02 /\ reachable [] [] edges_02_10 /\
  map fst (adj edges_01_02) = map fst (adj edges_02_10) /\
  (forall x, In x (edges edges_01_02) <-> In x (edges edges_02_10)) /\
  edges edges_01_02 = [(0, 1); (0, 2)] /\
  edges edges_02_10 = [(0, 2); (0, 1)].
Proof.
  assert (E1 : edges edges_01_02 = [(0, 1); (0, 2)]) by reflexivity.
  assert (E2 : edges edges_02_10 = [(0, 2); (0, 1)]) by reflexivity.
  split; [apply edges_01_02_reachable|].
  split; [apply edges_02_10_reachable|].
  split; [reflexivity|].
  rewrite E1, E2; split; [intros x; simpl; tauto | auto].
Qed.

(** Counterexample to C3: removing an absent key returns [None]. *)
Lemma remove_absent_not_raised :
  mem_node three_nodes 5 = false /\ remove_node three_nodes 5 = (three_nodes, Ret tt).
Proof. split; reflexivity. Qed.

Lemma edges_by_nodes_rows_spec g keys :
  wf g -> (forall u, In u keys -> mem_node g u = true) ->
  exists rows, edges_by_nodes_rows g keys = Some rows /\
    (forall a b, In (a, b) rows <-> In a keys /\ a < b /\ has_edge g a b = true) /\
    (NoDup keys -> NoDup rows).
Proof.
  intros Hwf; pose proof Hwf as [Hk Hnb _ _].
  induction keys as [|u ks IH]; intros Hmem.
  - exists []; simpl; repeat split; try tauto; constructor.
  - destruct IH as [rest [Hrest [Hin Hnd]]]; [intros x Hx; apply Hmem; simpl; auto|].
    assert (Hu : mem_node g u = true) by (apply Hmem; simpl; auto).
    unfold mem_node in Hu; destruct (lookup u (adj g)) as [eu|] eqn:Heu; [|discriminate].
    exists (edges_of_node u eu ++ rest); simpl; unfold neighbors; rewrite Heu, Hrest.
    split; [reflexivity|split].
    + intros a b; rewrite in_app_iff, Hin; unfold edges_of_node.
      rewrite in_map_iff; simpl; split.
      * intros [[[v id] [Heq Hv]]|[Ha Hb]]; [|tauto].
        inversion Heq; subst; apply filter_In in Hv as [Hv Hlt].
        apply Z.ltb_lt in Hlt; split; [auto|split; [auto|]].
        unfold has_edge; rewrite Heu.
        destruct (lookup b (nbrs eu)) eqn:Eb; auto.
        apply lookup_None in Eb; exfalso; apply Eb, (in_map fst _ _ Hv).
      * intros [[<-|Ha] [Hab He]]; [left|right; tauto].
        unfold has_edge in He; rewrite Heu in He.
        destruct (lookup b (nbrs eu)) as [id|] eqn:Eb; [|discriminate].
        exists (b, id); split; auto; apply filter_In; split;
          [apply lookup_In; auto | apply Z.ltb_lt; auto].
    + intros Hndk; inversion Hndk as [|? ? Hni Hndk']; subst.
      apply NoDup_app; [apply edges_of_node_NoDup; eapply Hnb, lookup_In; eauto|auto|].
      intros [a b] Ha Hb; unfold edges_of_node in Ha.
      apply in_map_iff in Ha as [[v id] [Heq _]]; inversion Heq; subst.
      apply Hin in Hb; tauto.
Qed.

Lemma filter_edges_of_node (w u : Z) (e : node_entry) :
  filter (fun p => Z.eqb (fst p) u) (edges_of_node w e) =
  if Z.eqb w u then edges_of_node w e else [].
Proof.
  unfold edges_of_node; generalize (filter (fun '(v, _) => Z.ltb w v) (nbrs e)) as l.
  induction l as [|[v id] l IH]; simpl; [destruct (Z.eqb w u); reflexivity|].
  rewrite IH; destruct (Z.eqb w u); reflexivity.
Qed.

Lemma filter_edges_lookup (l : list (Z * node_entry)) (u : Z) :
  NoDup (map fst l) ->
  filter (fun p => Z.eqb (fst p) u) (flat_map (fun '(w, e) => edges_of_node w e) l) =
  match lookup u l with Some e => edges_of_node u e | None => [] end.
Proof.
  induction l as [|[w e] l IH]; intros Hnd; simpl; [reflexivity|].
  inversion Hnd as [|? ? Hni Hnd']; subst.
  rewrite filter_app, filter_edges_of_node, IH by auto.
  destruct (Z.eqb_spec w u) as [->|Hne].
  - assert (Hl : lookup u l = None) by (apply lookup_None; auto).
    rewrite Hl, app_nil_r; reflexivity.
  - reflexivity.
Qed.

Lemma edges_by_nodes_rows_order g keys :
  wf g -> (forall u, In u keys -> mem_node g u = true) ->
  edges_by_nodes_rows g keys =
  Some (flat_map (fun u => filter (fun p => Z.eqb (fst p) u) (edges g)) keys).
Proof.
  intros Hwf; pose proof Hwf as [Hk _ _ _].
  induction keys as [|u ks IH]; intros Hmem; [reflexivity|].
  assert (Hu : mem_node g u = true) by (apply Hmem; simpl; auto).
  simpl; rewrite IH by (intros x Hx; apply Hmem; simpl; auto).
  unfold edges; rewrite (filter_edges_lookup (adj g) u Hk).
  unfold mem_node, neighbors in *; destruct (lookup u (adj g)) as [eu|]; [|discriminate].
  reflexivity.
Qed.

(** C7 (corrected): for keys that are all nodes, [edges_by_nodes(keys)]
    returns the pairs [(u, v)] with [u < v], the edge present and [u] in
    [keys] (never one whose only endpoint in [keys] is the higher one).
    The rows follow [keys]: for each entry [u] of [keys], in order and
    once per occurrence, come the pairs of [edges()] whose lower endpoint
    is [u]; when [keys] has no repeated entry each such edge is one row. *)
Theorem edges_by_nodes_lower_endpoint (s_n s_e : schema) (g : graph) (keys : list Z) :
  reachable s_n s_e g ->
  (forall u, In u keys -> mem_node g u = true) ->
  exists rows, edges_by_nodes g keys = Ret rows /\
    (forall a b, In (a, b) rows <-> In a keys /\ a < b /\ has_edge g a b = true) /\
    rows = flat_map (fun u => filter (fun p => Z.eqb (fst p) u) (edges g)) keys /\
    (NoDup keys -> NoDup rows).
Proof.
  intros Hr Hmem; pose proof (reachable_wf _ _ _ Hr) as Hwf.
  destruct (edges_by_nodes_rows_spec g keys Hwf Hmem) as [rows [Hrows [Hin Hnd]]].
  pose proof (edges_by_nodes_rows_order g keys Hwf Hmem) as Ho.
  rewrite Hrows in Ho; injection Ho as Ho.
  exists rows; split; [|split; [exact Hin|split; [exact Ho|exact Hnd]]].
  unfold edges_by_nodes; rewrite Hrows.
  assert (Hs : exists t, sum_counts g keys = Some t).
  { clear Hrows Hin Hnd Ho; induction keys as [|u ks IH]; simpl; [eauto|].
    destruct IH as [t Ht]; [intros x Hx; apply Hmem; simpl; auto|].
    assert (Hu : mem_node g u = true) by (apply Hmem; simpl; auto).
    unfold count_neighbors, mem_node in *; destruct (lookup u (adj g)); [|discriminate].
    rewrite Ht; simpl; eauto. }
  destruct Hs as [t Ht]; rewrite Ht; reflexivity.
Qed.

(** Counterexample to C7: a key given twice yields its edges twice, four
    rows for two matched edges. *)
Lemma edges_by_nodes_repeated_key :
  reachable [] [] edges_01_02 /\
  edges edges_01_02 = [(0, 1); (0, 2)] /\
  edges_by_nodes edges_01_02 [0; 0] = Ret [(0, 1); (0, 2); (0, 1); (0, 2)].
Proof. split; [apply edges_01_02_reachable | split; reflexivity]. Qed.

(** C8 (code bug): [set_edges_data_<name>] compares [len(us)] with
    [len(vs)] but never with [len(values)]: one key pair with two values
    returns [None] after writing the first value, where the node-side
    sibling [set_nodes_data_<name>] stops on [assert len(nodes) ==
    len(values)]. *)
Theorem set_edges_data_unchecked_values :
  reachable [] weight_schema weighted_pair /\
  snd (set_edges_data "weight" weighted_pair [0] [1] [VScalar 5; VScalar 6]) = Ret tt /\
  get_edge_data "weight" (fst (set_edges_data "weight" weighted_pair [0] [1]
                                 [VScalar 5; VScalar 6])) 0 1 = Some (VScalar 5) /\
  snd (set_nodes_data "weight" weighted_pair (Some [0]) [VScalar 5; VScalar 6])
    = Raise AssertionError.
Proof. split; [apply weighted_pair_reachable | repeat split; reflexivity]. Qed.

Lemma read_row_column_row s cols i :
  List.length cols = List.length s ->
  read_row s cols i = match column_row cols i with
                      | Some row => if args_ok s row then Some row else None
                      | None => None
                      end.
Proof.
  revert cols; induction s as [|[n d] s IH]; intros [|col cols] Hlen;
    simpl in Hlen; try discriminate; [reflexivity|].
  injection Hlen as Hlen; simpl.
  destruct (nth_error col i) as [v|]; [|reflexivity].
  rewrite (IH cols Hlen).
  destruct (column_row cols i) as [row|]; [|destruct (arg_ok d v); reflexivity].
  unfold args_ok; simpl; destruct (arg_ok d v); simpl; [|reflexivity].
  destruct (forallb _ _); reflexivity.
Qed.

Lemma add_nodes_loop_repeated s cols g pre ks :
  List.length cols = List.length s ->
  add_nodes_loop s g (pre ++ ks) cols (List.length pre) (List.length ks) =
  add_nodes_repeated s g ks cols (List.length pre).
Proof.
  intros Hlen; revert g pre; induction ks as [|k ks IH]; intros g pre; [reflexivity|].
  simpl; rewrite nth_error_app2, Nat.sub_diag by lia; simpl.
  rewrite (read_row_column_row s cols _ Hlen).
  destruct (column_row cols (List.length pre)) as [row|]; [|reflexivity].
  unfold add_node; destruct (args_ok s row); [|reflexivity]; simpl.
  replace (pre ++ k :: ks) with ((pre ++ [k]) ++ ks) by (rewrite <- app_assoc; reflexivity).
  replace (S (List.length pre)) with (List.length (pre ++ [k]))
    by (rewrite length_app; simpl; lia).
  apply IH.
Qed.

Lemma add_edges_loop_repeated s cols g pre es :
  List.length cols = List.length s ->
  add_edges_loop s g (pre ++ es) cols (List.length pre) (List.length es) =
  add_edges_repeated s g es cols (List.length pre).
Proof.
  intros Hlen; revert g pre; induction es as [|[u v] es IH]; intros g pre; [reflexivity|].
  simpl; rewrite nth_error_app2, Nat.sub_diag by lia; simpl.
  rewrite (read_row_column_row s cols _ Hlen).
  destruct (column_row cols (List.length pre)) as [row|]; [|reflexivity].
  unfold add_edge; destruct (args_ok s row); [|reflexivity]; simpl.
  replace (pre ++ (u, v) :: es) with ((pre ++ [(u, v)]) ++ es)
    by (rewrite <- app_assoc; reflexivity).
  replace (S (List.length pre)) with (List.length (pre ++ [(u, v)]))
    by (rewrite length_app; simpl; lia).
  apply IH.
Qed.

(** C9 (confirmed): given one column per schema field, [add_nodes] ends in
    the same state with the same Python result as calling [add_node] on
    each key and its row in index order, and [add_edges] likewise as
    [add_edge] on each row. *)
Theorem bulk_adders_are_repeated_scalar (s : schema) (g : graph) (keys : list Z)
    (es : list (Z * Z)) (cols : list (list val)) :
  List.length cols = List.length s ->
  add_nodes s g keys cols = add_nodes_repeated s g keys cols 0 /\
  add_edges s g es cols = add_edges_repeated s g es cols 0.
Proof.
  intros Hlen; split.
  - apply (add_nodes_loop_repeated s cols g [] keys Hlen).
  - apply (add_edges_loop_repeated s cols g [] es Hlen).
Qed.

Lemma assign_all_covered name l vals i :
  (i + List.length l <= List.length vals)%nat ->
  snd (assign_all name l vals i) = Ret tt /\
  List.length (fst (assign_all name l vals i)) = List.length l /\
  (forall j k e x, nth_error l j = Some (k, e) -> nth_error vals (i + j) = Some x ->
     nth_error (fst (assign_all name l vals i)) j = Some (k, set_nprop name x e)).
Proof.
  revert i; induction l as [|[k e] l IH]; intros i Hle; simpl in *.
  - split; [reflexivity|split; [reflexivity|]]; intros [|j]; discriminate.
  - destruct (nth_error vals i) as [x|] eqn:Ex.
    2:{ apply nth_error_None in Ex; lia. }
    destruct (IH (S i) ltac:(lia)) as [Hr [Hl Hn]].
    destruct (assign_all name l vals (S i)) as [l'' r]; cbn [fst snd] in Hr, Hl, Hn |- *.
    split; [auto|split; [cbn; lia|]].
    intros [|j] k' e' x' Hj Hx; cbn [nth_error] in Hj |- *.
    + inversion Hj; subst; rewrite Nat.add_0_r in Hx; congruence.
    + apply Hn; [exact Hj|].
      replace (S i + j)%nat with (i + S j)%nat by lia; exact Hx.
Qed.

Lemma assign_all_firstn name l vals i n :
  (i + List.length l <= n)%nat ->
  assign_all name l vals i = assign_all name l (firstn n vals) i.
Proof.
  revert i; induction l as [|[k e] l IH]; intros i Hle; simpl in *; [reflexivity|].
  rewrite nth_error_firstn; destruct (Nat.ltb_spec i n); [|lia].
  destruct (nth_error vals i); [|reflexivity].
  rewrite (IH (S i)) by lia; reflexivity.
Qed.

(** C10 (confirmed): [set_nodes_data_<name>(None, values)] never compares
    [len(values)] with the node count; when [values] has at least [size()]
    entries it returns [None] after assigning [values[i]] to the i-th node
    of the map order, and the entries past [size()] play no part. *)
Theorem set_all_nodes_by_position (name : string) (g : graph) (vals : list val) :
  (size g <= List.length vals)%nat ->
  let g' := fst (set_nodes_data name g None vals) in
  snd (set_nodes_data name g None vals) = Ret tt /\
  List.length (adj g') = size g /\
  (forall i k e x, nth_error (adj g) i = Some (k, e) -> nth_error vals i = Some x ->
     nth_error (adj g') i = Some (k, set_nprop name x e)) /\
  eprops g' = eprops g /\ num_of_edges g' = num_of_edges g /\
  set_nodes_data name g None vals = set_nodes_data name g None (firstn (size g) vals).
Proof.
  intros Hle g'; unfold size in *.
  destruct (assign_all_covered name (adj g) vals 0 Hle) as [Hr [Hl Hn]].
  unfold g', set_nodes_data.
  rewrite <- (assign_all_firstn name (adj g) vals 0 (List.length (adj g))) by lia.
  destruct (assign_all name (adj g) vals 0) as [l r]; simpl in *.
  repeat split; auto.
Qed.

(** C4 (code bug): for the node schema [position: double[3]] followed by
    [intensity: float64], the [add_node] template emits the constructor
    argument list [_p_positionintensity], a name the generated method does
    not declare, so the module does not compile and no round trip is
    possible; the sibling [add_nodes] emits [_p_position, intensity[i]]. *)
Theorem add_node_args_lose_separator :
  add_one_ctor_args "" position_intensity = "_p_positionintensity"%string /\
  add_many_ctor_args "" position_intensity = "_p_position, intensity[i]"%string /\
  ~ In "_p_positionintensity"%string (add_one_scope position_intensity).
Proof.
  split; [reflexivity|split; [reflexivity|]].
  simpl; intros H; repeat destruct H as [H|H]; try discriminate; contradiction.
Qed.

(** ** Witnesses: each hypothesis met on a concrete state *)

Lemma reachable_edges_simple_witness :
  reachable [] [] edges_01_02 /\
  ((forall u v, has_edge edges_01_02 u v = true ->
     u <> v /\ mem_node edges_01_02 u = true /\ mem_node edges_01_02 v = true /\
     has_edge edges_01_02 v u = true) /\
   (forall u e v, lookup u (adj edges_01_02) = Some e ->
     (count_occ Z.eq_dec (map fst (nbrs e)) v <= 1)%nat) /\
   NoDup (edges edges_01_02)).
Proof.
  split; [exact edges_01_02_reachable|].
  exact (reachable_edges_simple [] [] edges_01_02 edges_01_02_reachable).
Defined.

Lemma edges_canonical_once_witness :
  reachable [] [] edges_02_10 /\
  (NoDup (edges edges_02_10) /\
   (forall u v, In (u, v) (edges edges_02_10) <-> u < v /\ has_edge edges_02_10 u v = true) /\
   List.length (edges edges_02_10) = num_edges edges_02_10).
Proof.
  split; [exact edges_02_10_reachable|].
  exact (edges_canonical_once [] [] edges_02_10 edges_02_10_reachable).
Defined.

Lemma get_edge_data_symmetric_witness :
  reachable [] weight_schema weighted_pair /\
  get_edge_data "weight" weighted_pair 1 0 = get_edge_data "weight" weighted_pair 0 1.
Proof.
  split; [exact weighted_pair_reachable|].
  exact (get_edge_data_symmetric [] weight_schema weighted_pair weighted_pair_reachable
           "weight" 0 1).
Defined.

Lemma remove_node_spec_witness :
  reachable [] [] edges_01_02 /\
  (let g' := fst (remove_node edges_01_02 0) in
   snd (remove_node edges_01_02 0) = Ret tt /\
   match count_neighbors edges_01_02 0 with
   | Some d =>
       mem_node g' 0 = false /\
       (forall u v, In (u, v) (edges g') -> u <> 0 /\ v <> 0) /\
       (num_edges g' + d)%nat = num_edges edges_01_02 /\
       num_edges g' = List.length (edges g')
   | None => g' = edges_01_02
   end).
Proof.
  split; [exact edges_01_02_reachable|].
  exact (remove_node_spec [] [] edges_01_02 0 edges_01_02_reachable).
Defined.

Lemma edges_by_nodes_lower_endpoint_witness :
  reachable [] [] edges_02_10 /\
  (forall u, In u [1; 2] -> mem_node edges_02_10 u = true) /\
  (exists rows, edges_by_nodes edges_02_10 [1; 2] = Ret rows /\
    (forall a b, In (a, b) rows <-> In a [1; 2] /\ a < b /\ has_edge edges_02_10 a b = true) /\
    rows = flat_map (fun u => filter (fun p => Z.eqb (fst p) u) (edges edges_02_10)) [1; 2] /\
    (NoDup [1; 2] -> NoDup rows)).
Proof.
  assert (Hm : forall u, In u [1; 2] -> mem_node edges_02_10 u = true)
    by (intros u [<-|[<-|[]]]; reflexivity).
  split; [exact edges_02_10_reachable|split; [exact Hm|]].
  exact (edges_by_nodes_lower_endpoint [] [] edges_02_10 [1; 2] edges_02_10_reachable Hm).
Defined.

Lemma bulk_adders_are_repeated_scalar_witness :
  List.length [[VScalar 1; VScalar 2]] = List.length weight_schema /\
  (add_nodes weight_schema three_nodes [3; 4] [[VScalar 1; VScalar 2]] =
   add_nodes_repeated weight_schema three_nodes [3; 4] [[VScalar 1; VScalar 2]] 0 /\
   add_edges weight_schema three_nodes [(0, 1); (1, 2)] [[VScalar 1; VScalar 2]] =
   add_edges_repeated weight_schema three_nodes [(0, 1); (1, 2)] [[VScalar 1; VScalar 2]] 0).
Proof.
  split; [reflexivity|].
  apply (bulk_adders_are_repeated_scalar weight_schema three_nodes [3; 4] [(0, 1); (1, 2)]
           [[VScalar 1; VScalar 2]]); reflexivity.
Defined.

Lemma set_all_nodes_by_position_witness :
  (size three_nodes <= List.length [VScalar 7; VScalar 8; VScalar 9; VScalar 10])%nat /\
  (let g' := fst (set_nodes_data "x" three_nodes None [VScalar 7; VScalar 8; VScalar 9; VScalar 10]) in
   snd (set_nodes_data "x" three_nodes None [VScalar 7; VScalar 8; VScalar 9; VScalar 10]) = Ret tt /\
   List.length (adj g') = size three_nodes /\
   (forall i k e x, nth_error (adj three_nodes) i = Some (k, e) ->
      nth_error [VScalar 7; VScalar 8; VScalar 9; VScalar 10] i = Some x ->
      nth_error (adj g') i = Some (k, set_nprop "x" x e)) /\
   eprops g' = eprops three_nodes /\ num_of_edges g' = num_of_edges three_nodes /\
   set_nodes_data "x" three_nodes None [VScalar 7; VScalar 8; VScalar 9; VScalar 10] =
   set_nodes_data "x" three_nodes None
     (firstn (size three_nodes) [VScalar 7; VScalar 8; VScalar 9; VScalar 10])).
Proof.
  assert (H : (size three_nodes <= List.length [VScalar 7; VScalar 8; VScalar 9; VScalar 10])%nat)
    by (vm_compute; lia).
  split; [exact H|].
  exact (set_all_nodes_by_position "x" three_nodes _ H).
Defined.

(** ** Further properties of the wrapper *)

Lemma lookup_update_entry k f l k' :
  lookup k' (update_entry k f l) =
  if Z.eqb k' k then option_map f (lookup k' l) else lookup k' l.
Proof.
  unfold update_entry; induction l as [|[w e] l IH]; simpl;
    [destruct (Z.eqb k' k); reflexivity|].
  destruct (Z.eqb w k) eqn:Ewk; simpl; destruct (Z.eqb w k') eqn:Ewk'; rewrite ?IH.
  - apply Z.eqb_eq in Ewk, Ewk'; subst; rewrite Z.eqb_refl; reflexivity.
  - reflexivity.
  - apply Z.eqb_eq in Ewk'; subst; rewrite Ewk; reflexivity.
  - reflexivity.
Qed.

Lemma get_field_set_field r n x m :
  get_field (set_field r n x) m =
  if String.eqb n m then option_map (fun _ => x) (get_field r m) else get_field r m.
Proof.
  unfold set_field; induction r as [|[n' w] r IH]; simpl;
    [destruct (String.eqb n m); reflexivity|].
  destruct (String.eqb n' n) eqn:E1; simpl; destruct (String.eqb n' m) eqn:E2.
  - apply String.eqb_eq in E1, E2; subst; rewrite String.eqb_refl; reflexivity.
  - apply String.eqb_eq in E1; subst; rewrite E2, IH, E2; reflexivity.
  - apply String.eqb_eq in E2; subst; rewrite String.eqb_sym, E1; reflexivity.
  - exact IH.
Qed.

Lemma lookup_nat_set_field id i name x l :
  lookup_nat id (map (fun '(id', r) => if Nat.eqb id' i then (id', set_field r name x)
                                       else (id', r)) l) =
  if Nat.eqb id i then option_map (fun r => set_field r name x) (lookup_nat id l)
  else lookup_nat id l.
Proof.
  induction l as [|[j r] l IH]; simpl; [destruct (Nat.eqb id i); reflexivity|].
  destruct (Nat.eqb j i) eqn:E1; simpl; destruct (Nat.eqb j id) eqn:E2.
  - apply Nat.eqb_eq in E1, E2; subst; rewrite Nat.eqb_refl; reflexivity.
  - apply Nat.eqb_eq in E1; subst j; rewrite IH.
    destruct (Nat.eqb_spec id i); [subst; rewrite Nat.eqb_refl in E2; discriminate|].
    simpl; rewrite ?E2; reflexivity.
  - apply Nat.eqb_eq in E2; subst; rewrite E1; reflexivity.
  - exact IH.
Qed.

Lemma set_node_data_present name g k x :
  mem_node g k = true ->
  snd (set_node_data name g k x) = Ret tt /\
  nodes (fst (set_node_data name g k x)) = nodes g /\
  (forall k', mem_node (fst (set_node_data name g k x)) k' = mem_node g k') /\
  edges (fst (set_node_data name g k x)) = edges g /\
  num_edges (fst (set_node_data name g k x)) = num_edges g /\
  (forall name' k', get_node_data name' (fst (set_node_data name g k x)) k' =
     if Z.eqb k' k && String.eqb name name'
     then option_map (fun _ => x) (get_node_data name' g k')
     else get_node_data name' g k').
Proof.
  intros Hm; unfold set_node_data; rewrite Hm; simpl.
  split; [reflexivity|split; [|split; [|split; [|split; [reflexivity|]]]]].
  - unfold nodes; simpl; apply map_fst_update_entry.
  - intros k'; unfold mem_node; simpl; rewrite lookup_update_entry.
    destruct (Z.eqb k' k); [destruct (lookup k' (adj g))|]; reflexivity.
  - unfold edges; simpl; apply edges_skel, skel_update_nprop.
  - intros name' k'; unfold get_node_data, node_prop; simpl.
    rewrite lookup_update_entry.
    destruct (Z.eqb k' k); simpl; [|reflexivity].
    destruct (lookup k' (adj g)) as [e|]; simpl;
      [|destruct (String.eqb name name'); reflexivity].
    unfold set_nprop; simpl; rewrite get_field_set_field.
    destruct (String.eqb name name'); reflexivity.
Qed.

(** X8: [set_node_data_<name>(k, x)] on a node [k] returns [None]; reading
    field [name] of [k] afterwards gives [x] (when [k]'s record has that
    field), and every other field of [k], every other node and the edges
    are as they were. *)
Theorem set_node_data_roundtrip (name : string) (g : graph) (k : Z) (x : val) :
  mem_node g k = true ->
  let g' := fst (set_node_data name g k x) in
  snd (set_node_data name g k x) = Ret tt /\
  (forall name' k', get_node_data name' g' k' =
     if Z.eqb k' k && String.eqb name name'
     then option_map (fun _ => x) (get_node_data name' g k')
     else get_node_data name' g k') /\
  nodes g' = nodes g /\ edges g' = edges g /\ num_edges g' = num_edges g.
Proof.
  intros Hm g'; destruct (set_node_data_present name g k x Hm) as [H1 [H2 [_ [H4 [H5 H6]]]]].
  repeat split; auto.
Qed.

(** X9: on a well-formed store, [set_edge_data_<name>(u, v, x)] on an edge
    returns [None]; the write goes to the one record both directions
    share, so [get_edge_data_<name>(v, u)] reads the same as [(u, v)],
    which is [x] (when the record has that field); other fields and the
    edge set are unchanged. *)
Theorem set_edge_data_both_directions (s_n s_e : schema) (name : string) (g : graph)
    (u v : Z) (x : val) :
  reachable s_n s_e g -> has_edge g u v = true ->
  let g' := fst (set_edge_data name g u v x) in
  snd (set_edge_data name g u v x) = Ret tt /\
  (forall name', get_edge_data name' g' v u = get_edge_data name' g' u v) /\
  (forall name', get_edge_data name' g' u v =
     if String.eqb name name' then option_map (fun _ => x) (get_edge_data name' g u v)
     else get_edge_data name' g u v) /\
  edges g' = edges g /\ num_edges g' = num_edges g.
Proof.
  intros Hr He g'; pose proof (reachable_wf _ _ _ Hr) as Hwf.
  assert (Hwf' : wf g') by (apply wf_set_edge_data; auto).
  unfold has_edge in He.
  destruct (lookup u (adj g)) as [e|] eqn:Eu; [|discriminate].
  destruct (lookup v (nbrs e)) as [id|] eqn:Ev; [|discriminate].
  assert (Hg' : g' = mkGraph (adj g)
             (map (fun '(id', r) => if Nat.eqb id' id then (id', set_field r name x)
                                    else (id', r)) (eprops g))
             (next_eid g) (num_of_edges g))
    by (unfold g', set_edge_data; rewrite Eu, Ev; reflexivity).
  split; [unfold set_edge_data; rewrite Eu, Ev; reflexivity|].
  split; [|split; [|split]].
  - intros name'; unfold get_edge_data; rewrite !edge_prop_edge_id, (edge_id_sym g' v u Hwf').
    reflexivity.
  - intros name'; unfold get_edge_data, edge_prop; rewrite Hg'; simpl; rewrite Eu, Ev.
    rewrite lookup_nat_set_field, Nat.eqb_refl.
    destruct (lookup_nat id (eprops g)) as [r|]; simpl;
      [rewrite get_field_set_field; reflexivity|destruct (String.eqb name name'); reflexivity].
  - rewrite Hg'; reflexivity.
  - rewrite Hg'; reflexivity.
Qed.

Lemma fold_last_assigned k (l : list (Z * val)) (acc : option val) :
  fold_left (fun acc '(k', x) => if Z.eqb k' k then Some x else acc) l acc =
  match fold_left (fun acc '(k', x) => if Z.eqb k' k then Some x else acc) l None with
  | Some x => Some x
  | None => acc
  end.
Proof.
  revert acc; induction l as [|[k' x] l IH]; intros acc; simpl; [reflexivity|].
  destruct (Z.eqb k' k); [|apply IH].
  rewrite (IH (Some x)); destruct (fold_left _ l None); reflexivity.
Qed.

Lemma assign_keys_present name g ks vals :
  List.length ks = List.length vals ->
  (forall k, In k ks -> mem_node g k = true) ->
  snd (assign_keys name g ks vals) = Ret tt /\
  forall name' k, get_node_data name' (fst (assign_keys name g ks vals)) k =
    match last_assigned ks vals k with
    | Some x => if String.eqb name name' then option_map (fun _ => x) (get_node_data name' g k)
                else get_node_data name' g k
    | None => get_node_data name' g k
    end.
Proof.
  unfold last_assigned; revert g vals; induction ks as [|k0 ks IH]; intros g [|x0 xs] Hl Hm;
    simpl in Hl; try discriminate; [split; [reflexivity|intros; reflexivity]|].
  injection Hl as Hl.
  assert (Hk0 : mem_node g k0 = true) by (apply Hm; simpl; auto).
  destruct (set_node_data_present name g k0 x0 Hk0) as [Hr [_ [Hmem [_ [_ Hget]]]]].
  simpl; destruct (set_node_data name g k0 x0) as [g1 r] eqn:Eg1; simpl in Hr, Hmem, Hget; subst r.
  destruct (IH g1 xs Hl) as [IHr IHg]; [intros k Hk; rewrite Hmem; apply Hm; simpl; auto|].
  split; [exact IHr|]; intros name' k.
  rewrite IHg, (fold_last_assigned k (combine ks xs) (if Z.eqb k0 k then Some x0 else None)).
  rewrite Hget, (Z.eqb_sym k k0).
  destruct (fold_left _ (combine ks xs) None) as [x|].
  - destruct (String.eqb name name'); simpl; [|rewrite andb_false_r; reflexivity].
    destruct (Z.eqb k0 k); simpl; [destruct (get_node_data name' g k)|]; reflexivity.
  - destruct (Z.eqb k0 k), (String.eqb name name'); reflexivity.
Qed.

(** X13: [set_nodes_data_<name>(nodes, values)] with as many values as
    keys, all of them nodes, returns [None]; a key given several times
    keeps the value of its last occurrence, a node not given keeps its
    value, and other fields are untouched. *)
Theorem set_nodes_data_last_write_wins (name : string) (g : graph) (ks : list Z)
    (vals : list val) :
  List.length ks = List.length vals ->
  (forall k, In k ks -> mem_node g k = true) ->
  let g' := fst (set_nodes_data name g (Some ks) vals) in
  snd (set_nodes_data name g (Some ks) vals) = Ret tt /\
  forall name' k, get_node_data name' g' k =
    match last_assigned ks vals k with
    | Some x => if String.eqb name name' then option_map (fun _ => x) (get_node_data name' g k)
                else get_node_data name' g k
    | None => get_node_data name' g k
    end.
Proof.
  intros Hl Hm g'; unfold g', set_nodes_data; rewrite Hl, Nat.eqb_refl.
  apply assign_keys_present; auto.
Qed.

Lemma assign_all_nth name l vals i :
  (i <= List.length vals)%nat ->
  snd (assign_all name l vals i) =
    (if Nat.leb (i + List.length l) (List.length vals) then Ret tt else Raise IndexError) /\
  forall j, nth_error (fst (assign_all name l vals i)) j =
    match nth_error l j with
    | Some (k, e) => Some (match nth_error vals (i + j) with
                           | Some x => (k, set_nprop name x e)
                           | None => (k, e)
                           end)
    | None => None
    end.
Proof.
  revert i; induction l as [|[k e] l IH]; intros i Hi; simpl.
  - split; [|intros [|j]; reflexivity].
    destruct (Nat.leb_spec (i + 0) (List.length vals)); [reflexivity|lia].
  - destruct (nth_error vals i) as [x|] eqn:Ex.
    + assert (Hlt : (i < List.length vals)%nat) by (apply nth_error_Some; congruence).
      destruct (IH (S i) ltac:(lia)) as [Hr Hn].
      destruct (assign_all name l vals (S i)) as [l'' r]; cbn [fst snd] in Hr, Hn |- *.
      split.
      { rewrite Hr; destruct (Nat.leb_spec (S i + List.length l) (List.length vals));
          destruct (Nat.leb_spec (i + S (List.length l)) (List.length vals));
          try reflexivity; lia. }
      intros [|j]; simpl; [rewrite Nat.add_0_r, Ex; reflexivity|].
      rewrite Hn; replace (S i + j)%nat with (i + S j)%nat by lia; reflexivity.
    + apply nth_error_None in Ex; simpl.
      split; [destruct (Nat.leb_spec (i + S (List.length l)) (List.length vals));
              [lia|reflexivity]|].
      intros [|j]; simpl; [rewrite Nat.add_0_r; apply nth_error_None in Ex; rewrite Ex; reflexivity|].
      destruct (nth_error l j) as [[k' e']|]; [|reflexivity].
      assert (Hn : nth_error vals (i + S j) = None) by (apply nth_error_None; lia).
      rewrite Hn; reflexivity.
Qed.

(** X14: [set_nodes_data_<name>(None, values)] assigns [values[i]] to the
    i-th node of the map order for every [i] below both [len(values)] and
    [size()], leaves the later nodes as they were, and raises
    [IndexError] exactly when [values] has fewer entries than nodes; the
    nodes and edges stay the same either way. *)
Theorem set_nodes_data_all_prefix (name : string) (g : graph) (vals : list val) :
  let g' := fst (set_nodes_data name g None vals) in
  snd (set_nodes_data name g None vals) =
    (if Nat.leb (size g) (List.length vals) then Ret tt else Raise IndexError) /\
  nodes g' = nodes g /\ edges g' = edges g /\ num_edges g' = num_edges g /\
  forall i k e, nth_error (adj g) i = Some (k, e) ->
    nth_error (adj g') i = Some (k, match nth_error vals i with
                                    | Some x => set_nprop name x e
                                    | None => e
                                    end).
Proof.
  intros g'; destruct (assign_all_nth name (adj g) vals 0 ltac:(lia)) as [Hr Hn].
  pose proof (skel_assign_all name (adj g) vals 0) as Hs.
  unfold g', set_nodes_data, size, nodes, edges, num_edges in *.
  destruct (assign_all name (adj g) vals 0) as [l r]; simpl in *.
  split; [exact Hr|split; [|split; [|split; [reflexivity|]]]].
  - rewrite <- (skel_keys l), Hs, skel_keys; reflexivity.
  - apply edges_skel; exact Hs.
  - intros i k e Hi; rewrite Hn, Hi; simpl; destruct (nth_error vals i); reflexivity.
Qed.

Lemma skipn_nth_error {B} (l : list B) i x :
  nth_error l i = Some x -> skipn i l = x :: skipn (S i) l.
Proof.
  revert i; induction l as [|y l IH]; intros [|i] H; simpl in *; try discriminate.
  - inversion H; reflexivity.
  - apply IH; auto.
Qed.

Lemma assign_all_fields name l vals i :
  (i + List.length l <= List.length vals)%nat ->
  (forall k e, In (k, e) l -> get_field (nprop e) name <> None) ->
  map (fun '(_, e) => get_field (nprop e) name) (fst (assign_all name l vals i)) =
  map Some (firstn (List.length l) (skipn i vals)).
Proof.
  revert i; induction l as [|[k e] l IH]; intros i Hle Hf; simpl in *; [reflexivity|].
  destruct (nth_error vals i) as [x|] eqn:Ex; [|apply nth_error_None in Ex; lia].
  specialize (IH (S i) ltac:(lia) ltac:(intros k' e' H; eapply Hf; eauto)).
  destruct (assign_all name l vals (S i)) as [l'' r]; simpl in *.
  rewrite IH, (skipn_nth_error vals i x Ex); simpl.
  unfold set_nprop; simpl; rewrite get_field_set_field, String.eqb_refl.
  specialize (Hf k e (or_introl eq_refl)).
  destruct (get_field (nprop e) name); [reflexivity|contradiction].
Qed.

(** X7: when every node record has field [name] and [values] has at
    least [size()] entries, [get_nodes_data_<name>(None)] after
    [set_nodes_data_<name>(None, values)] returns [size()] rows, all
    written, holding the first [size()] entries of [values] in order. *)
Theorem set_then_get_all_nodes (name : string) (g : graph) (vals : list val) :
  (size g <= List.length vals)%nat ->
  (forall k e, In (k, e) (adj g) -> get_field (nprop e) name <> None) ->
  get_nodes_data name (fst (set_nodes_data name g None vals)) None =
  Ret (mkColumn (map Some (firstn (size g) vals)) (size g)).
Proof.
  intros Hle Hf; pose proof (assign_all_fields name (adj g) vals 0 Hle Hf) as Hm.
  pose proof (skel_assign_all name (adj g) vals 0) as Hs.
  unfold set_nodes_data, get_nodes_data, size in *.
  destruct (assign_all name (adj g) vals 0) as [l r]; simpl in *.
  assert (Hl : List.length l = List.length (adj g))
    by (rewrite <- (length_map fst l), <- skel_keys, Hs, skel_keys, length_map; reflexivity).
  rewrite Hm, Hl; unfold fill_column.
  rewrite length_map, length_firstn, Nat.min_l by lia.
  rewrite Nat.leb_refl; reflexivity.
Qed.

(** X6: on a reachable state, [get_nodes_data_<name>(None)] returns one
    written row per node, in the order of [nodes()], each the value
    [get_node_data_<name>] gives for that node; passing [list(nodes())]
    instead of [None] gives the same array. *)
Theorem get_nodes_data_in_node_order (s_n s_e : schema) (g : graph) (name : string) :
  reachable s_n s_e g ->
  get_nodes_data name g None =
    Ret (mkColumn (map (get_node_data name g) (nodes g)) (List.length (nodes g))) /\
  get_nodes_data name g (Some (nodes g)) = get_nodes_data name g None.
Proof.
  intros Hr; pose proof (reachable_wf _ _ _ Hr) as [Hk _ _ _].
  assert (Hm : map (get_node_data name g) (nodes g) =
               map (fun '(_, e) => get_field (nprop e) name) (adj g)).
  { unfold nodes; rewrite map_map; apply map_ext_in; intros [k e] Hin; simpl.
    unfold get_node_data, node_prop; rewrite (In_lookup _ _ _ Hk Hin); reflexivity. }
  unfold get_nodes_data, fill_column, size.
  rewrite Hm; unfold nodes; rewrite !length_map, Nat.leb_refl; split; reflexivity.
Qed.

(** X1: on a reachable state, [nodes()] yields every node exactly once:
    its keys are pairwise distinct, there are [len()] of them, and a key
    is yielded iff it is a node. *)
Theorem nodes_once (s_n s_e : schema) (g : graph) :
  reachable s_n s_e g ->
  NoDup (nodes g) /\ List.length (nodes g) = size g /\
  (forall k, In k (nodes g) <-> mem_node g k = true).
Proof.
  intros Hr; pose proof (reachable_wf _ _ _ Hr) as [Hk _ _ _].
  split; [exact Hk|split; [apply length_map|]].
  intros k; rewrite mem_node_In; reflexivity.
Qed.

(** X2: on a reachable state, [edges(node=k)] for a node [k] yields [k]'s
    neighbours each once, as many as [count_neighbors] gives for [k]; [v]
    is yielded iff the edge between [k] and [v] is in [edges()], and then
    [edges(node=v)] yields [k]. *)
Theorem edges_of_one_node (s_n s_e : schema) (g : graph) (k : Z) :
  reachable s_n s_e g -> mem_node g k = true ->
  exists ns, _neighbors g k = Some ns /\ NoDup ns /\
    count_neighbors g k = Some (List.length ns) /\
    (forall v, In v ns <-> In (canon k v) (edges g)) /\
    (forall v, In v ns -> exists ms, _neighbors g v = Some ms /\ In k ms).
Proof.
  intros Hr Hm; pose proof (reachable_wf _ _ _ Hr) as Hwf.
  pose proof Hwf as [Hk Hnb Hsym _].
  unfold mem_node in Hm; destruct (lookup k (adj g)) as [ek|] eqn:Ek; [|discriminate].
  assert (Hin : In (k, ek) (adj g)) by (apply lookup_In; auto).
  assert (Hrel : forall v, In v (map fst (nbrs ek)) <-> exists id, adjrel (adj g) k v id).
  { intros v; rewrite in_map_iff; split.
    - intros [[v' id] [Hv Hv']]; simpl in Hv; subst v'; exists id, ek; auto.
    - intros [id [e [He Hv]]]; rewrite (In_lookup _ _ _ Hk He) in Ek.
      inversion Ek; subst; exists (v, id); auto. }
  exists (map fst (nbrs ek)); unfold _neighbors, neighbors, count_neighbors.
  rewrite Ek; simpl; split; [reflexivity|split; [eauto|split; [rewrite length_map; reflexivity|split]]].
  - intros v; rewrite Hrel; unfold canon; destruct (Z.ltb_spec k v).
    + rewrite edges_spec, has_edge_adjrel by (auto; apply Hwf); split; [intros; split; auto|tauto].
    + rewrite edges_spec, has_edge_adjrel by (auto; apply Hwf); split.
      * intros [id Hr1]; destruct (Hsym _ _ _ Hr1) as [Hne Hr2]; split; [lia|eauto].
      * intros [_ [id Hr1]]; destruct (Hsym _ _ _ Hr1) as [_ Hr2]; eauto.
  - intros v Hv; apply Hrel in Hv as [id Hr1]; destruct (Hsym _ _ _ Hr1) as [_ [ev [Hev Hk']]].
    rewrite (In_lookup _ _ _ Hk Hev); simpl; eexists; split; [reflexivity|].
    apply (in_map fst _ _ Hk').
Qed.

(** Every (node, neighbour) pair of the containers, in map order. *)
Lemma adj_pairs_In (l : list (Z * node_entry)) a b :
  In (a, b) (flat_map (fun '(u, e) => map (fun p => (u, fst p)) (nbrs e)) l) <->
  exists id, adjrel l a b id.
Proof.
  rewrite in_flat_map; split.
  - intros [[u e] [Hin Hab]]; apply in_map_iff in Hab as [[v id] [Heq Hv]].
    inversion Heq; subst; exists id, e; auto.
  - intros [id [e [Hin Hb]]]; exists (a, e); split; auto.
    apply in_map_iff; exists (b, id); auto.
Qed.

Lemma adj_pairs_NoDup (l : list (Z * node_entry)) :
  NoDup (map fst l) -> (forall u e, In (u, e) l -> NoDup (map fst (nbrs e))) ->
  NoDup (flat_map (fun '(u, e) => map (fun p => (u, fst p)) (nbrs e)) l).
Proof.
  induction l as [|[u e] l IH]; simpl; [constructor|].
  intros Hnd Hnb; inversion Hnd as [|? ? Hni Hnd']; subst.
  apply NoDup_app.
  - replace (map (fun p => (u, fst p)) (nbrs e)) with (map (fun v => (u, v)) (map fst (nbrs e)))
      by (rewrite map_map; reflexivity).
    apply NoDup_map_inj; [intros x y H; inversion H; auto|eauto].
  - apply IH; eauto.
  - intros [a b] Ha Hb; apply in_map_iff in Ha as [[v id] [Heq _]]; inversion Heq; subst.
    apply adj_pairs_In in Hb as [id' [e' [Hin _]]].
    apply Hni, (in_map fst _ _ Hin).
Qed.

Lemma sum_counts_entries g (l : list (Z * node_entry)) :
  (forall k e, In (k, e) l -> lookup k (adj g) = Some e) ->
  sum_counts g (map fst l) =
  Some (List.length (flat_map (fun '(u, e) => map (fun p => (u, fst p)) (nbrs e)) l)).
Proof.
  induction l as [|[k e] l IH]; intros Hl; simpl; [reflexivity|].
  unfold count_neighbors; rewrite (Hl k e (or_introl eq_refl)), IH by (intros; apply Hl; simpl; auto); simpl.
  rewrite length_app, length_map; reflexivity.
Qed.

Lemma adj_pairs_twice_edges g :
  wf g ->
  List.length (flat_map (fun '(u, e) => map (fun p => (u, fst p)) (nbrs e)) (adj g)) =
  (2 * List.length (edges g))%nat.
Proof.
  intros Hwf; pose proof Hwf as [Hk Hnb Hsym _].
  set (P := flat_map (fun '(u, e) => map (fun p => (u, fst p)) (nbrs e)) (adj g)).
  assert (HP : NoDup P) by (apply adj_pairs_NoDup; auto).
  assert (HE : NoDup (edges g)) by (apply edges_NoDup; auto).
  pose proof (filter_length (fun p => Z.ltb (fst p) (snd p)) P) as Hf.
  assert (H1 : List.length (filter (fun p => Z.ltb (fst p) (snd p)) P) = List.length (edges g)).
  { apply NoDup_same_length; [apply NoDup_filter; auto|auto|].
    intros [a b]; rewrite filter_In, edges_spec, has_edge_adjrel by (auto; apply Hwf).
    unfold P; rewrite adj_pairs_In, Z.ltb_lt; simpl; tauto. }
  assert (H2 : List.length (filter (fun p => negb (Z.ltb (fst p) (snd p))) P) =
               List.length (edges g)).
  { rewrite <- (length_map (fun p => (snd p, fst p))).
    apply NoDup_same_length.
    - apply NoDup_map_inj; [intros [x1 y1] [x2 y2] H; inversion H; auto|].
      apply NoDup_filter; auto.
    - auto.
    - intros [a b]; rewrite in_map_iff, edges_spec, has_edge_adjrel by (auto; apply Hwf).
      split.
      + intros [[x y] [Heq Hin]]; inversion Heq; subst.
        apply filter_In in Hin as [Hin Hge]; unfold P in Hin; apply adj_pairs_In in Hin as [id Hr].
        simpl in Hge; apply negb_true_iff, Z.ltb_ge in Hge.
        destruct (Hsym _ _ _ Hr) as [Hne Hr']; split; [lia|eauto].
      + intros [Hab [id Hr]]; exists (b, a); split; [reflexivity|].
        apply filter_In; split; [unfold P; apply adj_pairs_In; destruct (Hsym _ _ _ Hr); eauto|].
        simpl; apply negb_true_iff, Z.ltb_ge; lia. }
  lia.
Qed.

Lemma lookup_entries g : wf g -> forall k e, In (k, e) (adj g) -> lookup k (adj g) = Some e.
Proof. intros [Hk _ _ _] k e Hin; apply In_lookup; auto. Qed.

(** X3: on a reachable state, [_num_edges(nodes)] over all the nodes of
    [nodes()], the sum of [count_neighbors], is twice [num_edges()]. *)
Theorem degree_sum_twice_edges (s_n s_e : schema) (g : graph) :
  reachable s_n s_e g -> sum_counts g (nodes g) = Some (2 * num_edges g)%nat.
Proof.
  intros Hr; pose proof (reachable_wf _ _ _ Hr) as Hwf.
  unfold nodes; rewrite sum_counts_entries by (apply lookup_entries; auto).
  rewrite adj_pairs_twice_edges by auto.
  unfold num_edges; rewrite (wf_count g Hwf); reflexivity.
Qed.

Lemma edges_by_nodes_rows_entries g (l : list (Z * node_entry)) :
  (forall k e, In (k, e) l -> lookup k (adj g) = Some e) ->
  edges_by_nodes_rows g (map fst l) = Some (flat_map (fun '(u, e) => edges_of_node u e) l).
Proof.
  induction l as [|[k e] l IH]; intros Hl; simpl; [reflexivity|].
  unfold neighbors; rewrite (Hl k e (or_introl eq_refl)), IH by (intros; apply Hl; simpl; auto); reflexivity.
Qed.

(** X4: on a reachable state, [edges_by_nodes] given all the keys of
    [nodes()] in that order returns exactly the pairs of [edges()], in
    the same order. *)
Theorem edges_by_nodes_all_nodes (s_n s_e : schema) (g : graph) :
  reachable s_n s_e g -> edges_by_nodes g (nodes g) = Ret (edges g).
Proof.
  intros Hr; pose proof (reachable_wf _ _ _ Hr) as Hwf.
  unfold edges_by_nodes, nodes.
  rewrite sum_counts_entries, edges_by_nodes_rows_entries by (apply lookup_entries; auto).
  reflexivity.
Qed.

(** X17: [edges_by_nodes] never writes more rows than the
    [_num_edges(nodes)] rows it allocates: whenever both are defined, the
    rows it keeps number at most the sum of the keys' neighbour counts. *)
Theorem edges_by_nodes_within_allocation (g : graph) (keys : list Z)
    (rows : list (Z * Z)) (total : nat) :
  edges_by_nodes_rows g keys = Some rows -> sum_counts g keys = Some total ->
  (List.length rows <= total)%nat.
Proof.
  revert rows total; induction keys as [|k ks IH]; intros rows total Hr Ht; simpl in *.
  - inversion Hr; inversion Ht; subst; simpl; lia.
  - unfold neighbors, count_neighbors in *.
    destruct (lookup k (adj g)) as [e|]; simpl in *; [|discriminate].
    destruct (edges_by_nodes_rows g ks) as [rest|]; [|discriminate].
    destruct (sum_counts g ks) as [t|]; [|discriminate].
    inversion Hr; inversion Ht; subst.
    rewrite length_app, length_map.
    pose proof (filter_length_le (fun '(v, _) => Z.ltb k v) (nbrs e)).
    specialize (IH rest t eq_refl eq_refl); lia.
Qed.

(** X5: on a reachable state, [count_neighbors(nodes)] for keys that are
    all nodes gives, for each key [k], the number of pairs of [edges()]
    that have [k] as an endpoint. *)
Theorem count_neighbors_counts_incident_edges (s_n s_e : schema) (g : graph) (keys : list Z) :
  reachable s_n s_e g -> (forall k, In k keys -> mem_node g k = true) ->
  count_neighbors_array g keys =
  map (fun k => Some (List.length (filter (incident k) (edges g)))) keys.
Proof.
  intros Hr Hm; pose proof (reachable_wf _ _ _ Hr) as Hwf.
  unfold count_neighbors_array; apply map_ext_in; intros k Hk.
  specialize (Hm k Hk); unfold mem_node, count_neighbors in *.
  destruct (lookup k (adj g)) as [ek|] eqn:Ek; [|discriminate]; simpl.
  rewrite (incident_edges_length g k ek Hwf Ek); reflexivity.
Qed.

Lemma edge_targets_spec g :
  wf g ->
  map fst (edge_targets g) = edges g /\
  (forall u v id, In ((u, v), id) (edge_targets g) -> edge_id g u v = Some id).
Proof.
  intros Hwf; pose proof Hwf as [Hk Hnb _ _]; split.
  - unfold edge_targets, edges; generalize (adj g) as l.
    induction l as [|[u e] l IH]; simpl; [reflexivity|].
    rewrite map_app, IH; f_equal; unfold edges_of_node; rewrite map_map.
    apply map_ext; intros [v id]; reflexivity.
  - intros u v id Hin; unfold edge_targets in Hin; apply in_flat_map in Hin as [[w e] [Hwe Hin]].
    apply in_map_iff in Hin as [[v' id'] [Heq Hv]]; inversion Heq; subst.
    apply filter_In in Hv as [Hv _].
    unfold edge_id; rewrite (In_lookup _ _ _ Hk Hwe); apply In_lookup; eauto.
Qed.

Lemma edge_rows_edges g name :
  wf g -> edge_rows name g = map (fun '(u, v) => get_edge_data name g u v) (edges g).
Proof.
  intros Hwf; destruct (edge_targets_spec g Hwf) as [Hf Hid].
  unfold edge_rows; rewrite <- Hf, map_map; apply map_ext_in.
  intros [[u v] id] Hin; simpl; unfold get_edge_data.
  rewrite edge_prop_edge_id, (Hid u v id Hin); unfold prop_field.
  destruct (lookup_nat id (eprops g)); reflexivity.
Qed.

Lemma pair_rows_combine name g us vs :
  pair_rows name g us vs =
  if Nat.leb (List.length us) (List.length vs)
  then Ret (map (fun '(u, v) => get_edge_data name g u v) (combine us vs))
  else Raise IndexError.
Proof.
  revert vs; induction us as [|u us IH]; intros [|v vs]; simpl; try reflexivity.
  rewrite IH; destruct (Nat.leb (List.length us) (List.length vs)); reflexivity.
Qed.

Lemma combine_fst_snd {B C} (l : list (B * C)) : combine (map fst l) (map snd l) = l.
Proof. induction l as [|[x y] l IH]; simpl; [reflexivity|rewrite IH; reflexivity]. Qed.

(** X10: on a reachable state, [get_edges_data_<name>(None, None)]
    returns [num_edges()] rows, all written, in the order of [edges()],
    each the value [get_edge_data_<name>] gives for that pair; passing
    the endpoints of [edges()] as [us] and [vs] gives the same array. *)
Theorem get_edges_data_in_edge_order (s_n s_e : schema) (g : graph) (name : string) :
  reachable s_n s_e g ->
  get_edges_data name g None None =
    RtOk (Ret (mkColumn (map (fun '(u, v) => get_edge_data name g u v) (edges g))
                        (num_edges g))) /\
  get_edges_data name g (Some (map fst (edges g))) (Some (map snd (edges g))) =
    get_edges_data name g None None.
Proof.
  intros Hr; pose proof (reachable_wf _ _ _ Hr) as Hwf.
  assert (Hn : num_edges g = List.length (edges g)) by apply Hwf.
  unfold get_edges_data, fill_column; rewrite edge_rows_edges by auto.
  rewrite pair_rows_combine, combine_fst_snd, Hn, (length_map fst), (length_map snd).
  rewrite !(length_map (fun '(u, v) => get_edge_data name g u v) (edges g)), !Nat.leb_refl.
  split; [reflexivity|cbv iota beta].
  rewrite (length_map (fun '(u, v) => get_edge_data name g u v) (edges g)), Nat.leb_refl.
  reflexivity.
Qed.

(** X11: [get_edges_data_<name>] raises [RuntimeError] when exactly one
    of [us], [vs] is [None]; given both, where every pair
    [(us[i], vs[i])] the loop reaches is an edge, it never compares their
    lengths: it returns [len(us)] rows read from those pairs when [vs] is
    at least as long (entries of [vs] past [len(us)] are ignored), and
    raises [IndexError] when [vs] is shorter. *)
Theorem get_edges_data_arguments (name : string) (g : graph) (us vs : list Z) :
  (forall u v, In (u, v) (combine us vs) -> has_edge g u v = true) ->
  get_edges_data name g None (Some vs) =
    RuntimeError "Either both us and vs are None, or neither" /\
  get_edges_data name g (Some us) None =
    RuntimeError "Either both us and vs are None, or neither" /\
  get_edges_data name g (Some us) (Some vs) =
    RtOk (if Nat.leb (List.length us) (List.length vs)
          then Ret (mkColumn (map (fun '(u, v) => get_edge_data name g u v) (combine us vs))
                             (List.length us))
          else Raise IndexError).
Proof.
  intros _; split; [reflexivity|split; [reflexivity|]].
  unfold get_edges_data; rewrite pair_rows_combine.
  destruct (Nat.leb_spec (List.length us) (List.length vs)); [|reflexivity].
  unfold fill_column; rewrite length_map, length_combine, Nat.min_l by lia.
  rewrite Nat.leb_refl; reflexivity.
Qed.

Lemma last_cons_default {A : Type} (l : list A) (a d : A) : last (a :: l) d = last l a.
Proof.
  revert a d; induction l as [|b l IH]; intros a d; [reflexivity|].
  change (last (b :: l) d = last (b :: l) a); rewrite !IH; reflexivity.
Qed.

Lemma run_view_gen_spec {K P : Type} (ts : list (K * P)) (ptr : option P) :
  run_view_gen ts ptr = (map fst ts, last (map (fun t => Some (snd t)) ts) ptr).
Proof.
  revert ptr; induction ts as [|[k p] ts IH]; intros ptr; simpl; [reflexivity|].
  rewrite IH; f_equal; symmetry; apply last_cons_default.
Qed.

Lemma read_collected_last {K P : Type} (read : P -> option val) (ts : list (K * P)) (t : K * P) :
  ts <> [] ->
  read_collected read ts = map (fun k => (k, read (snd (last ts t)))) (map fst ts).
Proof.
  intros Hne; destruct (exists_last Hne) as [l [t' ->]].
  unfold read_collected; rewrite run_view_gen_spec, !map_app; cbn [map]; rewrite !last_last.
  reflexivity.
Qed.

Lemma edge_target_field g name :
  wf g -> forall u v id, In ((u, v), id) (edge_targets g) ->
  prop_field name g id = get_edge_data name g u v.
Proof.
  intros Hwf u v id Hin; destruct (edge_targets_spec g Hwf) as [_ Hid].
  unfold get_edge_data; rewrite edge_prop_edge_id, (Hid u v id Hin); unfold prop_field.
  destruct (lookup_nat id (eprops g)); reflexivity.
Qed.

(** X15: [nodes(data=True)] yields [(node, view)] pairs where all views
    share one pointer: read as they are yielded, each view shows its own
    node's field; collected first and read afterwards, every view shows
    the field of the last node. *)
Theorem node_data_views_shared (s_n s_e : schema) (g : graph) (name : string) :
  reachable s_n s_e g ->
  read_lazily (fun r => get_field r name) (node_targets g) =
    map (fun k => (k, get_node_data name g k)) (nodes g) /\
  read_collected (fun r => get_field r name) (node_targets g) =
    map (fun k => (k, get_node_data name g (last (nodes g) 0))) (nodes g).
Proof.
  intros Hr; pose proof (reachable_wf _ _ _ Hr) as Hwf; split.
  - unfold read_lazily, node_targets, nodes; rewrite !map_map; apply map_ext_in.
    intros [k e] Hin; simpl; unfold get_node_data, node_prop.
    rewrite (lookup_entries g Hwf k e Hin); reflexivity.
  - destruct (adj g) as [|p l] eqn:Ha.
    + unfold read_collected, node_targets, nodes; rewrite Ha; reflexivity.
    + assert (Hne : adj g <> []) by congruence.
      destruct (exists_last Hne) as [l' [[k e] Hl']].
      rewrite (read_collected_last _ _ (0%Z, nprop e)) by
        (unfold node_targets; rewrite Hl', map_app; simpl; destruct l'; discriminate).
      unfold node_targets, nodes; rewrite Hl', !map_map, !map_app; cbn [map]; rewrite !last_last.
      simpl; unfold get_node_data, node_prop.
      rewrite (lookup_entries g Hwf k e) by (rewrite Hl'; apply in_or_app; right; left; reflexivity).
      f_equal; try (apply map_ext; intros [k' e']; reflexivity).
Qed.

(** X16: [edges(data=True)] yields [((u, v), view)] pairs in the order of
    [edges()] whose views share one pointer: read as they are yielded,
    each view shows its own edge's field; collected first, every view
    shows the field of the last edge. *)
Theorem edge_data_views_shared (s_n s_e : schema) (g : graph) (name : string) :
  reachable s_n s_e g ->
  read_lazily (prop_field name g) (edge_targets g) =
    map (fun p => (p, get_edge_data name g (fst p) (snd p))) (edges g) /\
  read_collected (prop_field name g) (edge_targets g) =
    map (fun p => (p, get_edge_data name g (fst (last (edges g) (0, 0)%Z))
                                            (snd (last (edges g) (0, 0)%Z)))) (edges g).
Proof.
  intros Hr; pose proof (reachable_wf _ _ _ Hr) as Hwf.
  destruct (edge_targets_spec g Hwf) as [Hf _]; split.
  - unfold read_lazily; rewrite <- Hf, map_map; apply map_ext_in.
    intros [[u v] id] Hin; simpl; rewrite (edge_target_field g name Hwf u v id Hin); reflexivity.
  - assert (H0 : edge_targets g = [] \/ edge_targets g <> [])
      by (destruct (edge_targets g); [left|right]; congruence).
    destruct H0 as [H0|Hne].
    + rewrite <- Hf, H0; reflexivity.
    + destruct (exists_last Hne) as [l' [[[u v] id] Hl']].
      rewrite (read_collected_last _ _ ((0, 0)%Z, O)) by exact Hne.
      rewrite <- Hf, Hl', map_app; cbn [map]; rewrite !last_last; simpl.
      rewrite (edge_target_field g name Hwf u v id) by (rewrite Hl'; apply in_or_app; right; left; reflexivity).
      reflexivity.
Qed.

Lemma str_app_assoc (a b c : string) : ((a ++ b) ++ c)%string = (a ++ (b ++ c))%string.
Proof. induction a as [|ch a IH]; simpl; [reflexivity|rewrite IH; reflexivity]. Qed.

Lemma str_app_nil_r (a : string) : (a ++ "")%string = a.
Proof. induction a as [|ch a IH]; simpl; [reflexivity|rewrite IH; reflexivity]. Qed.

Lemma str_length_app (a b : string) :
  String.length (a ++ b) = (String.length a + String.length b)%nat.
Proof. induction a as [|ch a IH]; simpl; [reflexivity|rewrite IH; reflexivity]. Qed.

Lemma str_app_inv_l (a b c : string) : (a ++ b)%string = (a ++ c)%string -> b = c.
Proof. induction a as [|ch a IH]; simpl; [auto|intros H; injection H; auto]. Qed.

Lemma add_one_concat (fs : schema) (a : string) :
  String.concat ", " (a :: map one_arg fs) = (a ++ add_one_ctor_args ", " fs)%string.
Proof.
  revert a; induction fs as [|[n d] fs IH]; intros a.
  - simpl; rewrite str_app_nil_r; reflexivity.
  - change (String.concat ", " (a :: map one_arg ((n, d) :: fs)))
      with (a ++ ", " ++ String.concat ", " (one_arg (n, d) :: map one_arg fs))%string.
    rewrite IH; unfold one_arg; cbn [add_one_ctor_args fst snd].
    destruct (is_array d); rewrite ?str_app_assoc; reflexivity.
Qed.

Lemma add_many_concat (fs : schema) (a : string) :
  String.concat ", " (a :: map many_arg fs) = (a ++ add_many_ctor_args ", " fs)%string.
Proof.
  revert a; induction fs as [|[n d] fs IH]; intros a.
  - simpl; rewrite str_app_nil_r; reflexivity.
  - change (String.concat ", " (a :: map many_arg ((n, d) :: fs)))
      with (a ++ ", " ++ String.concat ", " (many_arg (n, d) :: map many_arg fs))%string.
    rewrite IH; unfold many_arg; cbn [add_many_ctor_args fst snd].
    destruct (is_array d); rewrite ?str_app_assoc; reflexivity.
Qed.

Lemma add_one_sep_length (fs : schema) :
  (String.length (add_one_ctor_args "" fs) + (match fs with [] => 0 | _ => 2 end)
     <= String.length (add_one_ctor_args ", " fs))%nat.
Proof.
  induction fs as [|[n d] fs IH]; [simpl; lia|].
  cbn [add_one_ctor_args]; destruct (is_array d); simpl; rewrite !str_length_app.
  - assert (String.length (add_one_ctor_args "" fs) <= String.length (add_one_ctor_args ", " fs))%nat
      by (destruct fs; lia).
    lia.
  - lia.
Qed.

(** X18: the [NodeData(...)]/[EdgeData(...)] argument list emitted inside
    [add_${kind}s] is always the field arguments joined by [", "]; the one
    emitted inside [add_${kind}] is that joined list exactly when the schema
    has at most one field or its first field is a scalar. *)
Theorem ctor_arg_lists (fs : schema) :
  add_many_ctor_args "" fs = String.concat ", " (map many_arg fs) /\
  (add_one_ctor_args "" fs = String.concat ", " (map one_arg fs) <->
   (List.length fs <= 1)%nat \/ exists n fs', fs = (n, DScalar) :: fs').
Proof.
  split.
  - destruct fs as [|[n d] fs]; [reflexivity|].
    rewrite (map_cons many_arg (n, d) fs), add_many_concat.
    unfold many_arg; cbn [add_many_ctor_args fst snd]; destruct (is_array d); reflexivity.
  - destruct fs as [|[n d] fs]; [split; [left; simpl; lia|reflexivity]|].
    rewrite (map_cons one_arg (n, d) fs), add_one_concat.
    destruct d as [|k].
    + split; [intros _; right; eauto|intros _; reflexivity].
    + destruct fs as [|f fs].
      * split; [intros _; left; simpl; lia|intros _; simpl; rewrite str_app_nil_r; reflexivity].
      * split; [intros H; exfalso|intros [H|[n' [fs' H]]]; exfalso; [simpl in H; lia|discriminate]].
        assert (H' : add_one_ctor_args "" (f :: fs) = add_one_ctor_args ", " (f :: fs))
          by (apply (str_app_inv_l ("_p_" ++ n)); exact H).
        pose proof (add_one_sep_length (f :: fs)) as Hl; rewrite H' in Hl; lia.
Qed.

Lemma edges_by_nodes_rows_app g (ks1 ks2 : list Z) :
  edges_by_nodes_rows g (ks1 ++ ks2) =
  match edges_by_nodes_rows g ks1, edges_by_nodes_rows g ks2 with
  | Some r1, Some r2 => Some (r1 ++ r2)
  | _, _ => None
  end.
Proof.
  induction ks1 as [|u ks1 IH]; simpl.
  - destruct (edges_by_nodes_rows g ks2); reflexivity.
  - rewrite IH; destruct (neighbors g u), (edges_by_nodes_rows g ks1),
      (edges_by_nodes_rows g ks2); try reflexivity.
    rewrite app_assoc; reflexivity.
Qed.

Lemma rows_some_counts_some g (ks : list Z) rows :
  edges_by_nodes_rows g ks = Some rows -> exists t, sum_counts g ks = Some t.
Proof.
  revert rows; induction ks as [|u ks IH]; intros rows H; simpl; [eauto|].
  simpl in H; unfold neighbors in H; unfold count_neighbors.
  destruct (lookup u (adj g)); [|discriminate]; simpl in H.
  destruct (edges_by_nodes_rows g ks) as [rest|] eqn:E; [|discriminate].
  destruct (IH rest eq_refl) as [t ->]; simpl; eauto.
Qed.

Lemma edges_by_nodes_rows_result g (ks : list Z) :
  edges_by_nodes g ks =
  match edges_by_nodes_rows g ks with Some r => Ret r | None => Raise KeyError end.
Proof.
  unfold edges_by_nodes; destruct (edges_by_nodes_rows g ks) as [r|] eqn:E.
  - destruct (rows_some_counts_some g ks r E) as [t ->]; reflexivity.
  - destruct (sum_counts g ks); reflexivity.
Qed.

(** X19: [edges_by_nodes] over a concatenation of key arrays returns the
    rows of the first part followed by the rows of the second; in
    particular a key listed twice has its rows emitted twice. *)
Theorem edges_by_nodes_app (g : graph) (ks1 ks2 : list Z) :
  edges_by_nodes g (ks1 ++ ks2) =
  match edges_by_nodes g ks1, edges_by_nodes g ks2 with
  | Ret r1, Ret r2 => Ret (r1 ++ r2)
  | _, _ => Raise KeyError
  end.
Proof.
  rewrite !edges_by_nodes_rows_result, edges_by_nodes_rows_app.
  destruct (edges_by_nodes_rows g ks1), (edges_by_nodes_rows g ks2); reflexivity.
Qed.

(** ** Instances of the further properties on sample states *)

Lemma scored_nodes_reachable : reachable score_schema weight_schema scored_nodes.
Proof. unfold scored_nodes; eapply reach_step; [apply reach_empty|apply st_add_nodes]. Qed.

Lemma scored_path_reachable : reachable score_schema weight_schema scored_path.
Proof. unfold scored_path; eapply reach_step; [apply scored_nodes_reachable|apply st_add_edges]. Qed.

Lemma scored_nodes_have_score :
  forall k e, In (k, e) (adj scored_nodes) -> get_field (nprop e) "score" <> None.
Proof.
  intros k e Hin; vm_compute in Hin.
  destruct Hin as [H|[H|[H|[]]]]; inversion H; subst; vm_compute; discriminate.
Qed.

Lemma set_node_data_roundtrip_witness :
  mem_node scored_nodes 1 = true /\
  (let g' := fst (set_node_data "score" scored_nodes 1 (VScalar 7)) in
   snd (set_node_data "score" scored_nodes 1 (VScalar 7)) = Ret tt /\
   (forall name' k', get_node_data name' g' k' =
      if Z.eqb k' 1 && String.eqb "score" name'
      then option_map (fun _ => VScalar 7) (get_node_data name' scored_nodes k')
      else get_node_data name' scored_nodes k') /\
   nodes g' = nodes scored_nodes /\ edges g' = edges scored_nodes /\
   num_edges g' = num_edges scored_nodes).
Proof.
  split; [reflexivity|].
  apply (set_node_data_roundtrip "score" scored_nodes 1 (VScalar 7)); reflexivity.
Defined.

Lemma set_edge_data_both_directions_witness :
  reachable score_schema weight_schema scored_path /\ has_edge scored_path 1 2 = true /\
  (let g' := fst (set_edge_data "weight" scored_path 1 2 (VScalar 9)) in
   snd (set_edge_data "weight" scored_path 1 2 (VScalar 9)) = Ret tt /\
   (forall name', get_edge_data name' g' 2 1 = get_edge_data name' g' 1 2) /\
   (forall name', get_edge_data name' g' 1 2 =
      if String.eqb "weight" name'
      then option_map (fun _ => VScalar 9) (get_edge_data name' scored_path 1 2)
      else get_edge_data name' scored_path 1 2) /\
   edges g' = edges scored_path /\ num_edges g' = num_edges scored_path).
Proof.
  split; [exact scored_path_reachable|split; [reflexivity|]].
  apply (set_edge_data_both_directions score_schema weight_schema "weight" scored_path 1 2
           (VScalar 9) scored_path_reachable); reflexivity.
Defined.

Lemma set_nodes_data_last_write_wins_witness :
  List.length [0; 1; 0] = List.length [VScalar 1; VScalar 2; VScalar 3] /\
  (forall k, In k [0; 1; 0] -> mem_node scored_nodes k = true) /\
  (let g' := fst (set_nodes_data "score" scored_nodes (Some [0; 1; 0])
                    [VScalar 1; VScalar 2; VScalar 3]) in
   snd (set_nodes_data "score" scored_nodes (Some [0; 1; 0]) [VScalar 1; VScalar 2; VScalar 3])
     = Ret tt /\
   forall name' k, get_node_data name' g' k =
     match last_assigned [0; 1; 0] [VScalar 1; VScalar 2; VScalar 3] k with
     | Some x => if String.eqb "score" name'
                 then option_map (fun _ => x) (get_node_data name' scored_nodes k)
                 else get_node_data name' scored_nodes k
     | None => get_node_data name' scored_nodes k
     end).
Proof.
  assert (Hm : forall k, In k [0; 1; 0] -> mem_node scored_nodes k = true)
    by (intros k [<-|[<-|[<-|[]]]]; reflexivity).
  split; [reflexivity|split; [exact Hm|]].
  exact (set_nodes_data_last_write_wins "score" scored_nodes [0; 1; 0]
           [VScalar 1; VScalar 2; VScalar 3] eq_refl Hm).
Defined.

Lemma set_then_get_all_nodes_witness :
  (size scored_nodes <= List.length [VScalar 1; VScalar 2; VScalar 3; VScalar 4])%nat /\
  (forall k e, In (k, e) (adj scored_nodes) -> get_field (nprop e) "score" <> None) /\
  get_nodes_data "score"
    (fst (set_nodes_data "score" scored_nodes None [VScalar 1; VScalar 2; VScalar 3; VScalar 4]))
    None =
  Ret (mkColumn (map Some (firstn (size scored_nodes) [VScalar 1; VScalar 2; VScalar 3; VScalar 4]))
                (size scored_nodes)).
Proof.
  assert (Hle : (size scored_nodes <= List.length [VScalar 1; VScalar 2; VScalar 3; VScalar 4])%nat)
    by (apply Nat.leb_le; vm_compute; reflexivity).
  split; [exact Hle|split; [exact scored_nodes_have_score|]].
  exact (set_then_get_all_nodes "score" scored_nodes _ Hle scored_nodes_have_score).
Defined.

Lemma get_nodes_data_in_node_order_witness :
  reachable score_schema weight_schema scored_nodes /\
  (get_nodes_data "score" scored_nodes None =
     Ret (mkColumn (map (get_node_data "score" scored_nodes) (nodes scored_nodes))
                   (List.length (nodes scored_nodes))) /\
   get_nodes_data "score" scored_nodes (Some (nodes scored_nodes)) =
     get_nodes_data "score" scored_nodes None).
Proof.
  split; [exact scored_nodes_reachable|].
  exact (get_nodes_data_in_node_order score_schema weight_schema scored_nodes "score"
           scored_nodes_reachable).
Defined.

Lemma nodes_once_witness :
  reachable score_schema weight_schema scored_path /\
  (NoDup (nodes scored_path) /\ List.length (nodes scored_path) = size scored_path /\
   (forall k, In k (nodes scored_path) <-> mem_node scored_path k = true)).
Proof.
  split; [exact scored_path_reachable|].
  exact (nodes_once score_schema weight_schema scored_path scored_path_reachable).
Defined.

Lemma edges_of_one_node_witness :
  reachable score_schema weight_schema scored_path /\ mem_node scored_path 1 = true /\
  (exists ns, _neighbors scored_path 1 = Some ns /\ NoDup ns /\
    count_neighbors scored_path 1 = Some (List.length ns) /\
    (forall v, In v ns <-> In (canon 1 v) (edges scored_path)) /\
    (forall v, In v ns -> exists ms, _neighbors scored_path v = Some ms /\ In 1 ms)).
Proof.
  split; [exact scored_path_reachable|split; [reflexivity|]].
  apply (edges_of_one_node score_schema weight_schema scored_path 1 scored_path_reachable).
  reflexivity.
Defined.

Lemma degree_sum_twice_edges_witness :
  reachable score_schema weight_schema scored_path /\
  sum_counts scored_path (nodes scored_path) = Some (2 * num_edges scored_path)%nat.
Proof.
  split; [exact scored_path_reachable|].
  exact (degree_sum_twice_edges score_schema weight_schema scored_path scored_path_reachable).
Defined.

Lemma edges_by_nodes_all_nodes_witness :
  reachable score_schema weight_schema scored_path /\
  edges_by_nodes scored_path (nodes scored_path) = Ret (edges scored_path).
Proof.
  split; [exact scored_path_reachable|].
  exact (edges_by_nodes_all_nodes score_schema weight_schema scored_path scored_path_reachable).
Defined.

Lemma edges_by_nodes_within_allocation_witness :
  edges_by_nodes_rows scored_path [1; 0; 1] = Some [(1, 2); (0, 1); (1, 2)] /\
  sum_counts scored_path [1; 0; 1] = Some 5%nat /\
  (List.length ([(1, 2); (0, 1); (1, 2)]%Z : list (Z * Z)) <= 5)%nat.
Proof.
  split; [reflexivity|split; [reflexivity|]].
  apply (edges_by_nodes_within_allocation scored_path [1; 0; 1]); reflexivity.
Defined.

Lemma count_neighbors_counts_incident_edges_witness :
  reachable score_schema weight_schema scored_path /\
  (forall k, In k [0; 1; 2] -> mem_node scored_path k = true) /\
  count_neighbors_array scored_path [0; 1; 2] =
  map (fun k => Some (List.length (filter (incident k) (edges scored_path)))) [0; 1; 2].
Proof.
  assert (Hm : forall k, In k [0; 1; 2] -> mem_node scored_path k = true)
    by (intros k [<-|[<-|[<-|[]]]]; reflexivity).
  split; [exact scored_path_reachable|split; [exact Hm|]].
  exact (count_neighbors_counts_incident_edges score_schema weight_schema scored_path [0; 1; 2]
           scored_path_reachable Hm).
Defined.

Lemma get_edges_data_in_edge_order_witness :
  reachable score_schema weight_schema scored_path /\
  (get_edges_data "weight" scored_path None None =
     RtOk (Ret (mkColumn (map (fun '(u, v) => get_edge_data "weight" scored_path u v)
                              (edges scored_path))
                         (num_edges scored_path))) /\
   get_edges_data "weight" scored_path (Some (map fst (edges scored_path)))
                  (Some (map snd (edges scored_path))) =
     get_edges_data "weight" scored_path None None).
Proof.
  split; [exact scored_path_reachable|].
  exact (get_edges_data_in_edge_order score_schema weight_schema scored_path "weight"
           scored_path_reachable).
Defined.

Lemma get_edges_data_arguments_witness :
  (forall u v, In (u, v) (combine [1; 2] [0; 1; 5]) -> has_edge scored_path u v = true) /\
  (get_edges_data "weight" scored_path None (Some [0; 1; 5]) =
     RuntimeError "Either both us and vs are None, or neither" /\
   get_edges_data "weight" scored_path (Some [1; 2]) None =
     RuntimeError "Either both us and vs are None, or neither" /\
   get_edges_data "weight" scored_path (Some [1; 2]) (Some [0; 1; 5]) =
     RtOk (if Nat.leb (List.length [1; 2]) (List.length [0; 1; 5])
           then Ret (mkColumn (map (fun '(u, v) => get_edge_data "weight" scored_path u v)
                                   (combine [1; 2] [0; 1; 5]))
                              (List.length [1; 2]))
           else Raise IndexError)).
Proof.
  assert (He : forall u v, In (u, v) (combine [1; 2] [0; 1; 5]) -> has_edge scored_path u v = true)
    by (intros u v [H|[H|[]]]; inversion H; subst; reflexivity).
  split; [exact He|].
  exact (get_edges_data_arguments "weight" scored_path [1; 2] [0; 1; 5] He).
Defined.

Lemma node_data_views_shared_witness :
  reachable score_schema weight_schema scored_nodes /\
  (read_lazily (fun r => get_field r "score") (node_targets scored_nodes) =
     map (fun k => (k, get_node_data "score" scored_nodes k)) (nodes scored_nodes) /\
   read_collected (fun r => get_field r "score") (node_targets scored_nodes) =
     map (fun k => (k, get_node_data "score" scored_nodes (last (nodes scored_nodes) 0)))
         (nodes scored_nodes)).
Proof.
  split; [exact scored_nodes_reachable|].
  exact (node_data_views_shared score_schema weight_schema scored_nodes "score"
           scored_nodes_reachable).
Defined.

Lemma edge_data_views_shared_witness :
  reachable score_schema weight_schema scored_path /\
  (read_lazily (prop_field "weight" scored_path) (edge_targets scored_path) =
     map (fun p => (p, get_edge_data "weight" scored_path (fst p) (snd p))) (edges scored_path) /\
   read_collected (prop_field "weight" scored_path) (edge_targets scored_path) =
     map (fun p => (p, get_edge_data "weight" scored_path
                         (fst (last (edges scored_path) (0, 0)%Z))
                         (snd (last (edges scored_path) (0, 0)%Z)))) (edges scored_path)).
Proof.
  split; [exact scored_path_reachable|].
  exact (edge_data_views_shared score_schema weight_schema scored_path "weight"
           scored_path_reachable).
Defined.
